(** * HIDrem: the transport layer of [com.py] and the server protocol

    A shallow embedding of the length-prefixed receiver, the connection
    manager's registries and main loop, the UDP discovery parser and the
    server-side message dispatch, with the properties of the specification
    stated over them. *)

From Stdlib Require Import ZArith Lia List Bool.
From Stdlib Require Import Strings.String Strings.Byte.
From Stdlib Require DecimalString.
From stdpp Require Import base option list gmap strings.

Local Open Scope Z_scope.

(** ** Python values and control flow *)

Module Py.

(** A Python 2 [str]: a sequence of bytes. *)
Abbreviation bytes := (list byte).

Definition b (s : string) : bytes := list_byte_of_string s.

Definition len {A} (l : list A) : Z := Z.of_nat (length l).

(** [l[:k]] with Python's reading of a negative bound. *)
Definition slice_to {A} (k : Z) (l : list A) : list A :=
  if k <? 0 then firstn (length l - Z.to_nat (- k)) l
  else firstn (Z.to_nat k) l.

(** [l[k:]] with Python's reading of a negative bound. *)
Definition slice_from {A} (k : Z) (l : list A) : list A :=
  if k <? 0 then skipn (length l - Z.to_nat (- k)) l
  else skipn (Z.to_nat k) l.

(** The exceptions the modelled code can raise. *)
Inductive exn :=
| RuntimeError (msg : string)
| ValueError (msg : string)
| StructError
| KeyError
| IndexError
| TypeError
| SocketError
| AssertionError.

(** The outcome of a call: a value, an exception, or a loop that was cut
    off by the fuel of the model. *)
Inductive res (A : Type) :=
| Ok (a : A)
| Raise (e : exn)
| OutOfFuel.
Arguments Ok {A} a.
Arguments Raise {A} e.
Arguments OutOfFuel {A}.

(** State and exceptions: the state survives a raise, as the fields of a
    Python object do. *)
Definition M (S A : Type) : Type := S -> S * res A.

Definition ret {S A} (a : A) : M S A := fun s => (s, Ok a).

Definition bind {S A B} (m : M S A) (k : A -> M S B) : M S B :=
  fun s => match m s with
           | (s', Ok a) => k a s'
           | (s', Raise e) => (s', Raise e)
           | (s', OutOfFuel) => (s', OutOfFuel)
           end.

Definition raise {S A} (e : exn) : M S A := fun s => (s, Raise e).
Definition diverge {S A} : M S A := fun s => (s, OutOfFuel).
Definition get {S} : M S S := fun s => (s, Ok s).
Definition modify {S} (f : S -> S) : M S unit := fun s => (f s, Ok tt).
Definition lift_res {S A} (r : res A) : M S A := fun s => (s, r).

(** Run a computation on the second component of a pair of states. *)
Definition on_snd {R S A} (m : M S A) : M (R * S) A :=
  fun rs => match m (snd rs) with (s', x) => ((fst rs, s'), x) end.

(** [try: m except: pass] *)
Definition try_pass {S} (m : M S unit) : M S unit :=
  fun s => match m s with
           | (s', Raise _) => (s', Ok tt)
           | r => r
           end.

(** [for x in l: body x] *)
Fixpoint for_each {S A} (l : list A) (body : A -> M S unit) : M S unit :=
  match l with
  | [] => ret tt
  | x :: l' => bind (body x) (fun _ => for_each l' body)
  end.

End Py.
Import Py.

Notation "x <- m ;; k" := (bind m (fun x => k))
  (at level 100, m at next level, right associativity).
Notation "m ;;; k" := (bind m (fun _ => k))
  (at level 100, right associativity).

(** ** [struct.pack] and [struct.unpack] for the format ["!I"] *)

Module Struct.

Definition byte_of_Z (z : Z) : byte :=
  match Byte.of_N (Z.to_N (z mod 256)) with
  | Some x => x
  | None => x00
  end.

Definition Z_of_byte (x : byte) : Z := Z.of_N (Byte.to_N x).

(** [struct.pack("!I", n)]: four bytes, most significant first; a number
    outside of 32 unsigned bits is refused. *)
Definition pack_I (n : Z) : res bytes :=
  if (0 <=? n) && (n <? 2 ^ 32)
  then Ok [byte_of_Z (n / 2 ^ 24); byte_of_Z (n / 2 ^ 16);
           byte_of_Z (n / 2 ^ 8); byte_of_Z n]
  else Raise StructError.

(** [struct.unpack("!I", s)[0]]: [s] must have exactly four bytes. *)
Definition unpack_I (s : bytes) : res Z :=
  match s with
  | [b3; b2; b1; b0] =>
      Ok (Z_of_byte b3 * 2 ^ 24 + Z_of_byte b2 * 2 ^ 16
          + Z_of_byte b1 * 2 ^ 8 + Z_of_byte b0)
  | _ => Raise StructError
  end.

End Struct.
Import Struct.

(** ** [LengthPrefixedReceiver] *)

Definition PREFIX_LENGTH : Z := 4.
Definition RSTATE_PREFIX : string := "prefix".
Definition RSTATE_BODY : string := "body".

Record Receiver := mkReceiver {
  _recv_state : string;
  _buffer : bytes;
  _to_recv : Z
}.

Definition unknown_state : exn := RuntimeError "Unknown state!".

Definition reset_receive : Receiver :=
  {| _recv_state := RSTATE_PREFIX; _buffer := []; _to_recv := PREFIX_LENGTH |}.

Section Feed.
(** The state the handler's [got_message] acts on lives beside the
    receiver's own fields. *)
Context {St : Type}.
Variable got_message : bytes -> M St unit.

Definition self : M (Receiver * St) Receiver := fun s => (s, Ok (fst s)).

Definition set_recv_state (x : string) : M (Receiver * St) unit :=
  modify (fun s => (mkReceiver x (_buffer (fst s)) (_to_recv (fst s)), snd s)).
Definition set_buffer (x : bytes) : M (Receiver * St) unit :=
  modify (fun s => (mkReceiver (_recv_state (fst s)) x (_to_recv (fst s)), snd s)).
Definition set_to_recv (x : Z) : M (Receiver * St) unit :=
  modify (fun s => (mkReceiver (_recv_state (fst s)) (_buffer (fst s)) x, snd s)).

(** The [while len(data) > 0] loop of [feed]; one unit of fuel per
    iteration. *)
Fixpoint feed_loop (fuel : nat) (data : bytes) : M (Receiver * St) unit :=
  if 0 <? len data then
    match fuel with
    | O => diverge
    | S fuel' =>
        r <- self ;;
        set_buffer (_buffer r ++ slice_to (Z.min (_to_recv r) (len data)) data) ;;;
        if len data <? _to_recv r then
          set_to_recv (_to_recv r - len data) ;;;
          feed_loop fuel' []
        else
          let data' := slice_from (_to_recv r) data in
          if bool_decide (_recv_state r = RSTATE_PREFIX) then
            r1 <- self ;;
            n <- lift_res (unpack_I (_buffer r1)) ;;
            set_to_recv n ;;;
            set_buffer [] ;;;
            (if 0 <? n then set_recv_state RSTATE_BODY
             else set_recv_state RSTATE_PREFIX ;;; set_to_recv PREFIX_LENGTH) ;;;
            feed_loop fuel' data'
          else if bool_decide (_recv_state r = RSTATE_BODY) then
            set_to_recv PREFIX_LENGTH ;;;
            set_recv_state RSTATE_PREFIX ;;;
            r1 <- self ;;
            set_buffer [] ;;;
            on_snd (got_message (_buffer r1)) ;;;
            feed_loop fuel' data'
          else raise unknown_state
    end
  else ret tt.

(** [feed(data)]. After its first iteration the loop consumes at least
    one byte per iteration, so [length data + 1] iterations are enough. *)
Definition feed (data : bytes) : M (Receiver * St) unit :=
  feed_loop (S (length data)) data.

End Feed.

(** The base class: [got_message] does nothing. The calls are recorded, in
    order, so that they can be counted. *)
Definition record_message (msg : bytes) : M (list bytes) unit :=
  modify (fun log => log ++ [msg]).

(** Feed the chunks one call after the other; stop at the first call that
    does not return. *)
Fixpoint feed_all (chunks : list bytes) : M (Receiver * list bytes) unit :=
  match chunks with
  | [] => ret tt
  | c :: cs => feed record_message c ;;; feed_all cs
  end.

(** [send_message]'s framing: the prefix and the payload handed to the
    manager. *)
Definition encode (msg : bytes) : res bytes :=
  match pack_I (len msg) with
  | Ok prefix => Ok (prefix ++ msg)
  | Raise e => Raise e
  | OutOfFuel => OutOfFuel
  end.

(** What holds of the fields of a receiver between two calls of [feed],
    as far as the fields alone tell: bytes are still missing, the state is
    one of the two assembly states, and the buffer and the missing count
    add up to 4 in the prefix state and to a length that fits the prefix in
    the body state. ([assembling], below, ties the sum to the length the
    frame declares.) *)
Definition receiver_ok (r : Receiver) : Prop :=
  1 <= _to_recv r /\
  ((_recv_state r = RSTATE_PREFIX /\ len (_buffer r) + _to_recv r = PREFIX_LENGTH) \/
   (_recv_state r = RSTATE_BODY /\ len (_buffer r) + _to_recv r < 2 ^ 32)).

(** A stream of whole frames: each is a prefix of four bytes and a body of
    the length the prefix declares. *)
Inductive whole_frames : bytes -> Prop :=
| frames_nil : whole_frames []
| frames_snoc (done prefix body : bytes) :
    whole_frames done -> unpack_I prefix = Ok (len body) ->
    whole_frames (done ++ prefix ++ body).

(** The receiver against [stream], the bytes fed to it so far: the stream
    is a run of whole frames and then the part of the current frame that
    has arrived. In the prefix state that part is the buffer, and the
    buffer and the missing count add up to 4; in the body state it is the
    prefix of the frame and the buffer, and the buffer and the missing
    count add up to the length that prefix declares. *)
Definition assembling (stream : bytes) (r : Receiver) : Prop :=
  1 <= _to_recv r /\
  ((_recv_state r = RSTATE_PREFIX /\
    len (_buffer r) + _to_recv r = PREFIX_LENGTH /\
    exists done, whole_frames done /\ stream = done ++ _buffer r) \/
   (_recv_state r = RSTATE_BODY /\
    exists done prefix,
      whole_frames done /\ stream = done ++ prefix ++ _buffer r /\
      unpack_I prefix = Ok (len (_buffer r) + _to_recv r))).

(** The receiver and the log once the field being assembled is complete:
    what the [else] branch of [feed] does with a prefix of four bytes or
    with a body. *)
Definition field_done (st : string) (field : bytes) (log : list bytes)
  : Receiver * list bytes :=
  if bool_decide (st = RSTATE_PREFIX) then
    match unpack_I field with
    | Ok n => (if 0 <? n then mkReceiver RSTATE_BODY [] n else reset_receive, log)
    | _ => (mkReceiver st field 0, log)
    end
  else (reset_receive, log ++ [field]).

(** ** [ConnectionManager] *)

(** A socket object, by identity. *)
Abbreviation socket := nat.
Definition address : Type := bytes * Z.

(** What a [got_message] body asks of its own receiver and of the
    collaborators it holds. *)
Inductive action :=
| ASendMessage (msg : bytes)
| AClose
| APressKey (key : bytes)
| AReleaseKey (key : bytes).

(** The calls a [got_message] body makes, in order, and the exception its
    own code raises afterwards, if any. *)
Definition script : Type := list action * option exn.

(** What the manager and the protocols do to the outside, in order. *)
Inductive event :=
| EvBind (s : socket) (host : bytes) (port : Z)
| EvListen (s : socket)
| EvConnect (s : socket) (a : address)
| EvAccept (s client : socket)
| EvRecv (s : socket)
| EvSend (s : socket) (data : bytes)
| EvSockClose (s : socket)
| EvSetup (p : nat)
| EvGotMessage (p : nat) (msg : bytes)
| EvOnClose (p : nat) (error : bool)
| EvPressKey (p : nat) (key : bytes)
| EvReleaseKey (p : nat) (key : bytes).

(** What [select.select] answers. *)
Inductive select_result :=
| Selected (tr tw he : list socket)
| SelectBadDescriptor
| SelectFailed.

(** The operating system, as far as the manager calls it: the port a bind
    ends on, and the outcome of each blocking call. *)
Record OS := mkOS {
  os_bind : bytes -> Z -> res Z;
  os_connect : address -> res unit;
  os_accept : socket -> res unit;
  os_recv : socket -> Z -> res bytes;
  os_send : socket -> bytes -> res unit
}.

Definition max_read : Z := 2048.
Definition max_write : Z := 2048.

Section Manager.

(** The protocol classes handed to [listen] and [connect], and the
    [got_message] of each. [setup] and [on_close] touch nothing of the
    manager; they are recorded as events. *)
Variable cls : Type.
Variable got_message_of : cls -> bytes -> script.

(** A protocol object: its class, [_peer] and the receiver's fields. *)
Record Proto := mkProto {
  p_class : cls;
  _peer : socket;
  p_recv : Receiver
}.

(** The manager, the protocol objects it refers to, the sockets created
    so far and the events so far. The registries hold references. *)
Record World := mkWorld {
  _running : bool;
  listen_s : gmap socket cls;
  s2r : gmap socket nat;
  s2w : gmap socket bytes;
  sockname : gmap socket Z;
  heap : gmap nat Proto;
  next_socket : socket;
  trace : list event
}.

(** [ConnectionManager.__init__] *)
Definition init : World :=
  mkWorld false ∅ ∅ ∅ ∅ ∅ 1%nat [].

Definition with_running (x : bool) (w : World) : World :=
  mkWorld x (listen_s w) (s2r w) (s2w w) (sockname w) (heap w) (next_socket w) (trace w).
Definition with_listen_s (x : gmap socket cls) (w : World) : World :=
  mkWorld (_running w) x (s2r w) (s2w w) (sockname w) (heap w) (next_socket w) (trace w).
Definition with_s2r (x : gmap socket nat) (w : World) : World :=
  mkWorld (_running w) (listen_s w) x (s2w w) (sockname w) (heap w) (next_socket w) (trace w).
Definition with_s2w (x : gmap socket bytes) (w : World) : World :=
  mkWorld (_running w) (listen_s w) (s2r w) x (sockname w) (heap w) (next_socket w) (trace w).
Definition with_sockname (x : gmap socket Z) (w : World) : World :=
  mkWorld (_running w) (listen_s w) (s2r w) (s2w w) x (heap w) (next_socket w) (trace w).
Definition with_heap (x : gmap nat Proto) (w : World) : World :=
  mkWorld (_running w) (listen_s w) (s2r w) (s2w w) (sockname w) x (next_socket w) (trace w).
Definition with_next_socket (x : socket) (w : World) : World :=
  mkWorld (_running w) (listen_s w) (s2r w) (s2w w) (sockname w) (heap w) x (trace w).
Definition with_trace (x : list event) (w : World) : World :=
  mkWorld (_running w) (listen_s w) (s2r w) (s2w w) (sockname w) (heap w) (next_socket w) x.

Definition emit (e : event) : M World unit :=
  modify (fun w => with_trace (trace w ++ [e]) w).

(** [d[k]], which raises [KeyError] on a missing key. *)
Definition getitem {V} (d : World -> gmap nat V) (k : nat) : M World V :=
  fun w => match d w !! k with
           | Some v => (w, Ok v)
           | None => (w, Raise KeyError)
           end.

(** [del d[k]], which raises [KeyError] on a missing key. *)
Definition delitem {V} (d : World -> gmap nat V)
    (put : gmap nat V -> World -> World) (k : nat) : M World unit :=
  fun w => match d w !! k with
           | Some _ => (put (delete k (d w)) w, Ok tt)
           | None => (w, Raise KeyError)
           end.

(** [d[k] = v] *)
Definition setitem {V} (d : World -> gmap nat V)
    (put : gmap nat V -> World -> World) (k : nat) (v : V) : M World unit :=
  modify (fun w => put (<[k := v]> (d w)) w).

(** [d.keys()] *)
Definition keys {V} (d : gmap nat V) : list nat := (map_to_list d).*1.

(** [socket.socket()]: a socket object no one holds yet. *)
Definition new_socket : M World socket :=
  fun w => (with_next_socket (S (next_socket w)) w, Ok (next_socket w)).

(** [proto(self, s)]: [__init__] resets the receiver and calls [setup].
    The object is the one referred to by its peer's number. *)
Definition new_proto (c : cls) (s : socket) : M World nat :=
  modify (fun w => with_heap (<[s := mkProto c s reset_receive]> (heap w)) w) ;;;
  emit (EvSetup s) ;;;
  ret s.

(** [listen(host, port, proto)] *)
Definition listen (os : OS) (host : bytes) (port : Z) (proto : cls) : M World Z :=
  s <- new_socket ;;
  emit (EvBind s host port) ;;;
  bound <- lift_res (os_bind os host port) ;;
  setitem sockname with_sockname s bound ;;;
  emit (EvListen s) ;;;
  setitem listen_s with_listen_s s proto ;;;
  port' <- getitem sockname s ;;
  ret port'.

(** [connect(address, proto)] *)
Definition connect (os : OS) (a : address) (proto : cls) : M World nat :=
  s <- new_socket ;;
  emit (EvConnect s a) ;;;
  lift_res (os_connect os a) ;;;
  pi <- new_proto proto s ;;
  setitem s2r with_s2r s pi ;;;
  setitem s2w with_s2w s [] ;;;
  ret pi.

(** [ConnectionManager.send_message(target, message)] *)
Definition send_message (target : socket) (message : bytes) : M World unit :=
  buff <- getitem s2w target ;;
  setitem s2w with_s2w target (buff ++ message).

(** The socket registered for a protocol object, as the search loop of
    [close] finds it. *)
Definition socket_of (protocol : nat) (w : World) : option socket :=
  fst <$> List.find (fun kv => bool_decide (snd kv = protocol)) (map_to_list (s2r w)).

(** [ConnectionManager.close(protocol)] *)
Definition close (protocol : nat) : M World unit :=
  w <- get ;;
  match socket_of protocol w with
  | None => raise (ValueError "No such protocol connected!")
  | Some s =>
      emit (EvOnClose protocol false) ;;;
      try_pass (emit (EvSockClose s)) ;;;
      delitem s2r with_s2r s ;;;
      delitem s2w with_s2w s
  end.

(** [LengthPrefixedReceiver.send_message(msg)] of the object [p]. *)
Definition proto_send_message (p : nat) (msg : bytes) : M World unit :=
  o <- getitem heap p ;;
  tosend <- lift_res (encode msg) ;;
  send_message (_peer o) tosend.

Definition run_action (p : nat) (a : action) : M World unit :=
  match a with
  | ASendMessage msg => proto_send_message p msg
  | AClose => close p
  | APressKey key => emit (EvPressKey p key)
  | AReleaseKey key => emit (EvReleaseKey p key)
  end.

(** [got_message(msg)] of the object [p], by its class. *)
Definition got_message (p : nat) (msg : bytes) : M World unit :=
  emit (EvGotMessage p msg) ;;;
  o <- getitem heap p ;;
  for_each (fst (got_message_of (p_class o) msg)) (run_action p) ;;;
  match snd (got_message_of (p_class o) msg) with
  | Some e => raise e
  | None => ret tt
  end.

Definition store_recv (p : nat) (r : Receiver) (w : World) : World :=
  with_heap (alter (fun o => mkProto (p_class o) (_peer o) r) p (heap w)) w.

(** [proto.feed(data)] on the object [p]: the receiver's fields are those
    of the object, before and after, also when the call raises. *)
Definition proto_feed (p : nat) (data : bytes) : M World unit :=
  fun w => match heap w !! p with
           | None => (w, Raise KeyError)
           | Some o =>
               match feed (got_message p) data (p_recv o, w) with
               | ((r', w'), x) => (store_recv p r' w', x)
               end
           end.

(** The body of [for s in he]. *)
Definition handle_error (ls : list socket) (s : socket) : M World unit :=
  if bool_decide (s ∈ ls) then
    try_pass (emit (EvSockClose s)) ;;;
    delitem listen_s with_listen_s s
  else
    proto <- getitem s2r s ;;
    emit (EvOnClose proto true) ;;;
    delitem s2r with_s2r s ;;;
    delitem s2w with_s2w s.

(** The body of [for s in tr]. *)
Definition handle_readable (os : OS) (ls : list socket) (s : socket) : M World unit :=
  if bool_decide (s ∈ ls) then
    protoclass <- getitem listen_s s ;;
    lift_res (os_accept os s) ;;;
    client <- new_socket ;;
    emit (EvAccept s client) ;;;
    proto <- new_proto protoclass client ;;
    setitem s2r with_s2r client proto ;;;
    setitem s2w with_s2w client []
  else
    proto <- getitem s2r s ;;
    emit (EvRecv s) ;;;
    data <- lift_res (os_recv os s max_read) ;;
    if 0 <? len data then
      proto_feed proto data
    else
      emit (EvOnClose proto false) ;;;
      delitem s2r with_s2r s ;;;
      delitem s2w with_s2w s ;;;
      try_pass (emit (EvSockClose s)).

(** The body of [for s in tw]. *)
Definition handle_writable (os : OS) (s : socket) : M World unit :=
  buff <- getitem s2w s ;;
  if len buff =? 0 then ret tt
  else
    tosend <- (if max_write <=? len buff then
                 setitem s2w with_s2w s [] ;;; ret buff
               else
                 setitem s2w with_s2w s (slice_from max_write buff) ;;;
                 ret (slice_to max_write buff)) ;;
    emit (EvSend s tosend) ;;;
    lift_res (os_send os s tosend).

(** One pass of the [while self._running] loop of [run], given what
    [select] and the sockets answer during it. *)
Definition iteration (os : OS) (sel : select_result) : M World unit :=
  w <- get ;;
  let ls := keys (listen_s w) in
  let rs := keys (s2r w) in
  let ws := List.filter (fun s => match s2w w !! s with
                                  | Some (_ :: _) => true
                                  | _ => false
                                  end) (keys (s2w w)) in
  let es := ls ++ ws ++ rs in
  if len (ls ++ rs ++ ws ++ es) =? 0 then ret tt
  else
    match sel with
    | SelectBadDescriptor => ret tt
    | SelectFailed => raise SocketError
    | Selected tr tw he =>
        for_each he (handle_error ls) ;;;
        for_each tr (handle_readable os ls) ;;;
        for_each tw (handle_writable os)
    end.

(** [run()]: the passes made until the loop is left; one entry of
    [passes] per pass, and the flag is read before each. The loop is left
    when the flag is found cleared or a pass raises. When the passes listed
    are used up and the flag is still set, the loop is not left: what comes
    after is not described by [passes], and the outcome stays open. *)
Fixpoint run_loop (passes : list (OS * select_result)) : M World unit :=
  match passes with
  | [] =>
      w <- get ;;
      if _running w then diverge else ret tt
  | (os, sel) :: rest =>
      w <- get ;;
      if _running w then iteration os sel ;;; run_loop rest else ret tt
  end.

Definition run (passes : list (OS * select_result)) : M World unit :=
  w <- get ;;
  if _running w then raise (RuntimeError "Already Running!")
  else modify (with_running true) ;;; run_loop passes.

(** [stop()] *)
Definition stop : M World unit :=
  w <- get ;;
  if negb (_running w) then raise (RuntimeError "Not running!")
  else modify (with_running false).

(** The two registries of connections hold the same sockets. *)
Definition registries_agree (w : World) : Prop := dom (s2r w) = dom (s2w w).

End Manager.

Arguments mkProto {cls}.
Arguments p_class {cls}.
Arguments _peer {cls}.
Arguments p_recv {cls}.
Arguments mkWorld {cls}.
Arguments _running {cls}.
Arguments listen_s {cls}.
Arguments s2r {cls}.
Arguments s2w {cls}.
Arguments sockname {cls}.
Arguments heap {cls}.
Arguments next_socket {cls}.
Arguments trace {cls}.
Arguments init {cls}.
Arguments with_running {cls}.
Arguments with_listen_s {cls}.
Arguments with_s2r {cls}.
Arguments with_s2w {cls}.
Arguments with_sockname {cls}.
Arguments with_heap {cls}.
Arguments with_next_socket {cls}.
Arguments with_trace {cls}.
Arguments emit {cls}.
Arguments getitem {cls V}.
Arguments delitem {cls V}.
Arguments setitem {cls V}.
Arguments new_socket {cls}.
Arguments new_proto {cls}.
Arguments listen {cls}.
Arguments connect {cls}.
Arguments send_message {cls}.
Arguments socket_of {cls}.
Arguments close {cls}.
Arguments proto_send_message {cls}.
Arguments run_action {cls}.
Arguments got_message {cls}.
Arguments store_recv {cls}.
Arguments proto_feed {cls}.
Arguments handle_error {cls}.
Arguments handle_readable {cls}.
Arguments handle_writable {cls}.
Arguments iteration {cls}.
Arguments run_loop {cls}.
Arguments run {cls}.
Arguments stop {cls}.
Arguments registries_agree {cls}.

(** ** Assertions on computations *)

(** From a state in [P], the computation ends in [Q a] when it returns [a]
    and in [E] when it does not return. *)
Definition triple {S A} (P : S -> Prop) (m : M S A)
    (Q : A -> S -> Prop) (E : S -> Prop) : Prop :=
  forall s, P s ->
    match m s with
    | (s', Ok a) => Q a s'
    | (s', _) => E s'
    end.

(** The computation keeps [I], however it ends. *)
Definition preserves {S A} (I : S -> Prop) (m : M S A) : Prop :=
  triple I m (fun _ => I) I.

(** The instance used where the classes do not matter: one class, whose
    [got_message] is the base class's [pass]. *)
Definition base_got_message (_ : unit) (_ : bytes) : script := ([], None).

(** An operating system on which every call succeeds, binds end on the
    port [port], and every [recv] returns [data]. *)
Definition os_fine (port : Z) (data : bytes) : OS :=
  mkOS (fun _ _ => Ok port) (fun _ => Ok tt) (fun _ => Ok tt)
       (fun _ _ => Ok data) (fun _ _ => Ok tt).

(** The same, but the connection of the socket [bad] was reset: [recv] on
    it raises. *)
Definition os_reset (bad : socket) (data : bytes) : OS :=
  mkOS (fun _ _ => Ok 5026) (fun _ => Ok tt) (fun _ => Ok tt)
       (fun s _ => if bool_decide (s = bad) then Raise SocketError else Ok data)
       (fun _ _ => Ok tt).

(** A manager with one connection, socket 1, and [n] bytes queued on it. *)
Definition world_with_queue (n : nat) : World unit :=
  fst (send_message 1%nat (repeat "A"%byte n)
         (fst (connect (os_fine 5026 []) (b "192.0.2.5", 5026) tt init))).

(** The event is a read from, or a write to, the socket [s]. *)
Definition touches (s : socket) (e : event) : bool :=
  match e with
  | EvRecv s' | EvSend s' _ => bool_decide (s' = s)
  | _ => false
  end.

(** Since the events [t0], nothing was read from or written to the socket
    [s], a socket that exists. *)
Definition untouched {cls} (t0 : list event) (s : socket) (w : World cls) : Prop :=
  (s < next_socket w)%nat /\
  exists t, trace w = t0 ++ t /\ Forall (fun e => touches s e = false) t.

(** Since the events [t0], the protocol [p] of the socket [s] was told
    [on_close(True)], [s] is in neither registry of connections, and
    nothing was read from or written to [s]. *)
Definition deregistered {cls} (t0 : list event) (p : nat) (s : socket)
    (w : World cls) : Prop :=
  s2r w !! s = None /\ s2w w !! s = None /\ (s < next_socket w)%nat /\
  exists t, trace w = t0 ++ t /\ Forall (fun e => touches s e = false) t
            /\ EvOnClose p true ∈ t.

(** A running manager with two connections, sockets 1 and 2, made by two
    calls of [connect]. *)
Definition two_connections : World unit :=
  with_running true
    (fst (connect (os_fine 5026 []) (b "192.0.2.6", 5026) tt
            (fst (connect (os_fine 5026 []) (b "192.0.2.5", 5026) tt init)))).

(** ** [HIDremServerProtocol] *)

#[global] Instance byte_eqdec : EqDecision byte := Byte.byte_eq_dec.

Section Server.

(** The constants of the module [common]: the message kinds and the
    keyboard actions. *)
Variables ID_PING ID_KEYBOARD ID_MOUSE : bytes.
Variables ACTION_PRESS ACTION_RELEASE : bytes.

(** [HIDremServerProtocol.got_message(msg)] *)
Definition server_got_message (msg : bytes) : script :=
  match msg with
  | [] => ([], None)
  | c :: msg' =>
      let idb := [c] in
      if bool_decide (idb = ID_PING) then
        ([ASendMessage (idb ++ msg')], None)
      else if bool_decide (idb = ID_KEYBOARD) then
        match msg' with
        | [] => ([], Some IndexError)
        | a :: keyname =>
            let action := [a] in
            if bool_decide (action = ACTION_PRESS) then ([APressKey keyname], None)
            else if bool_decide (action = ACTION_RELEASE) then ([AReleaseKey keyname], None)
            else ([AClose], None)
        end
      else if bool_decide (idb = ID_MOUSE) then ([], None)
      else ([AClose], None)
  end.

(** The protocol classes of the server process. *)
Inductive protoclass :=
| LengthPrefixedReceiver
| HIDremServerProtocol.

Definition class_got_message (c : protoclass) : bytes -> script :=
  match c with
  | LengthPrefixedReceiver => fun _ => ([], None)
  | HIDremServerProtocol => server_got_message
  end.

(** The payload breaks the protocol: its kind is none of the three, or
    it is a keyboard message whose action is neither of the two. *)
Definition violation (msg : bytes) : Prop :=
  match msg with
  | [] => False
  | c :: msg' =>
      ([c] <> ID_PING /\ [c] <> ID_KEYBOARD /\ [c] <> ID_MOUSE) \/
      ([c] = ID_KEYBOARD /\
       exists a keyname, msg' = a :: keyname /\
                         [a] <> ACTION_PRESS /\ [a] <> ACTION_RELEASE)
  end.

End Server.

(** A server with one listener, socket 1, that accepted one connection,
    socket 2. *)
Definition server_world : World protoclass :=
  fst (handle_readable (class_got_message [x00] [x01] [x02] [x00] [x01])
         (os_fine 5026 []) [1%nat] 1%nat
         (fst (listen (os_fine 5026 []) (b "0.0.0.0") 0 HIDremServerProtocol init))).

(** ** Discovery *)

Definition BROADCAST_IDENTIFIER : bytes := b "HIDrem0:1".
Definition BROADCAST_PORT : Z := 5026.

(** An element of [tdata]: a string or, once converted, a number. *)
Inductive field :=
| FStr (s : bytes)
| FInt (n : Z).

#[global] Instance field_eqdec : EqDecision field.
Proof. solve_decision. Defined.

(** What one [recvfrom] of the loop of [discover] ends with. *)
Inductive recv_result :=
| Timeout
| Datagram (data : bytes) (addr : address).

(** [data.startswith(prefix)] *)
Fixpoint startswith (prefix data : bytes) : bool :=
  match prefix, data with
  | [], _ => true
  | x :: prefix', y :: data' => bool_decide (x = y) && startswith prefix' data'
  | _ :: _, [] => false
  end.

(** [data.replace(old, empty, 1)] for a non-empty [old]: the leftmost
    occurrence of [old] is taken out. *)
Fixpoint remove_first (old data : bytes) : bytes :=
  if startswith old data then skipn (length old) data
  else match data with
       | [] => []
       | x :: data' => x :: remove_first old data'
       end.

(** [data.split(sep)] for a separator of one byte. *)
Fixpoint split (sep : byte) (data : bytes) : list bytes :=
  match data with
  | [] => [[]]
  | x :: data' =>
      if bool_decide (x = sep) then [] :: split sep data'
      else match split sep data' with
           | piece :: pieces => (x :: piece) :: pieces
           | [] => [[x]]
           end
  end.

Definition SEP : byte := "|"%byte.

(** [l[i]] and [l[i] = x] on a list; both raise [IndexError] out of
    range. *)
Definition list_getitem {A} (l : list A) (i : nat) : res A :=
  match l !! i with
  | Some x => Ok x
  | None => Raise IndexError
  end.

Definition list_setitem {A} (l : list A) (i : nat) (x : A) : res (list A) :=
  if bool_decide (i < length l)%nat then Ok (<[i := x]> l) else Raise IndexError.

Definition rbind {A B} (r : res A) (k : A -> res B) : res B :=
  match r with
  | Ok a => k a
  | Raise e => Raise e
  | OutOfFuel => OutOfFuel
  end.

Section Discover.

(** [base64.b64decode] and [int] on a string, from Python's library. *)
Variable b64decode : bytes -> res bytes.
Variable py_int : bytes -> res Z.

Definition on_str {A} (f : bytes -> res A) (x : field) : res A :=
  match x with
  | FStr s => f s
  | FInt _ => Raise TypeError
  end.

(** From the datagram to [tuple(tdata)]: the lines of the loop body after
    the test of the identifier. *)
Definition advert_of (ip : bytes) (data : bytes) : res (list field) :=
  let data := remove_first (BROADCAST_IDENTIFIER ++ [SEP]) data in
  let tdata := FStr <$> split SEP data in
  rbind (list_getitem tdata 0) (fun t0 =>
  rbind (on_str b64decode t0) (fun hostname =>
  rbind (list_setitem tdata 0 (FStr hostname)) (fun tdata =>
  rbind (list_setitem tdata 1 (FStr ip)) (fun tdata =>
  rbind (list_getitem tdata 2) (fun t2 =>
  rbind (on_str py_int t2) (fun port =>
  list_setitem tdata 2 (FInt port))))))).

(** The body of the loop for one datagram; the state is [found]. *)
Definition on_datagram (data : bytes) (addr : address) : M (list (list field)) unit :=
  let ip := fst addr in
  if negb (startswith BROADCAST_IDENTIFIER data) then ret tt
  else
    tdata <- lift_res (advert_of ip data) ;;
    found <- get ;;
    if bool_decide (tdata ∈ found) then ret tt
    else modify (fun found => found ++ [tdata]).

Definition on_recv (r : recv_result) : M (list (list field)) unit :=
  match r with
  | Timeout => ret tt
  | Datagram data addr => on_datagram data addr
  end.

(** [discover(searchtime)], given what the calls of [recvfrom] made
    within the search time ended with. *)
Definition discover (received : list recv_result) : res (list (list field)) :=
  match for_each received on_recv [] with
  | (found, Ok _) => Ok found
  | (_, Raise e) => Raise e
  | (_, OutOfFuel) => OutOfFuel
  end.

End Discover.

(** The advertisement [broadcast] sends for these fields. *)
Definition advertisement (hostname ip port : bytes) : bytes :=
  BROADCAST_IDENTIFIER ++ [SEP] ++ hostname ++ [SEP] ++ ip ++ [SEP] ++ port.

(** Instances of the two library functions, for the closed examples only;
    the theorems on [discover] hold for any [b64decode] and [py_int]. They
    are not Python's functions: [b64decode_strict] takes padded base64 of
    the standard alphabet and refuses every other string, where Python's
    [base64.b64decode] skips the characters outside the alphabet;
    [int_decimal] takes a run of decimal digits and refuses every other
    string, where Python's [int] also accepts a sign and blanks around the
    number. On padded base64 of the standard alphabet and on runs of
    digits, which is what the examples use, they give what Python's
    give. *)
Definition b64_value (c : byte) : option Z :=
  let n := Z_of_byte c in
  if (65 <=? n) && (n <=? 90) then Some (n - 65)
  else if (97 <=? n) && (n <=? 122) then Some (n - 71)
  else if (48 <=? n) && (n <=? 57) then Some (n + 4)
  else if n =? 43 then Some 62
  else if n =? 47 then Some 63
  else None.

Fixpoint b64decode_strict (s : bytes) : res bytes :=
  match s with
  | [] => Ok []
  | c1 :: c2 :: c3 :: c4 :: rest =>
      match b64_value c1, b64_value c2 with
      | Some v1, Some v2 =>
          let b1 := byte_of_Z (v1 * 4 + v2 / 16) in
          if bool_decide (c3 = "="%byte) then
            if bool_decide (c4 = "="%byte) && bool_decide (rest = [])
            then Ok [b1] else Raise TypeError
          else
            match b64_value c3 with
            | Some v3 =>
                let b2 := byte_of_Z (v2 * 16 + v3 / 4) in
                if bool_decide (c4 = "="%byte) then
                  if bool_decide (rest = []) then Ok [b1; b2] else Raise TypeError
                else
                  match b64_value c4 with
                  | Some v4 =>
                      rbind (b64decode_strict rest)
                        (fun tail => Ok (b1 :: b2 :: byte_of_Z (v3 * 64 + v4) :: tail))
                  | None => Raise TypeError
                  end
            | None => Raise TypeError
            end
      | _, _ => Raise TypeError
      end
  | _ => Raise TypeError
  end.

Definition digit_value (c : byte) : option Z :=
  let n := Z_of_byte c in
  if (48 <=? n) && (n <=? 57) then Some (n - 48) else None.

Definition int_decimal (s : bytes) : res Z :=
  match s with
  | [] => Raise (ValueError "invalid literal for int()")
  | _ =>
      fold_left (fun acc c =>
                   rbind acc (fun n =>
                     match digit_value c with
                     | Some d => Ok (10 * n + d)
                     | None => Raise (ValueError "invalid literal for int()")
                     end)) s (Ok 0)
  end.

(** ** [HIDremClientProtocol]: what it sends *)

Section Client.
Variables ID_KEYBOARD ACTION_PRESS ACTION_RELEASE : bytes.
Context {cls : Type}.

(** [press_key(key)] *)
Definition press_key (p : nat) (key : bytes) : M (World cls) unit :=
  proto_send_message p (ID_KEYBOARD ++ ACTION_PRESS ++ key).

(** [release_key(key)] *)
Definition release_key (p : nat) (key : bytes) : M (World cls) unit :=
  proto_send_message p (ID_KEYBOARD ++ ACTION_RELEASE ++ key).

End Client.

(** ** [broadcast] *)

Section Broadcast.

(** [base64.b64encode] and [str] of a number, from Python's library. *)
Variable b64encode : bytes -> bytes.
Variable py_str : Z -> bytes.

(** The message [broadcast(port)] sends, for the host name of the machine
    and the ip it resolved. *)
Definition broadcast_message (hostname ip : bytes) (port : Z) : bytes :=
  BROADCAST_IDENTIFIER ++ [SEP] ++ b64encode hostname ++ [SEP] ++ ip ++ [SEP]
  ++ py_str port.

End Broadcast.

(** Instances for the examples: base64 of the standard alphabet with
    padding, and the decimal digits of a number. *)
Definition b64_char (v : Z) : byte :=
  if v <? 26 then byte_of_Z (v + 65)
  else if v <? 52 then byte_of_Z (v + 71)
  else if v <? 62 then byte_of_Z (v - 4)
  else if v =? 62 then "+"%byte
  else "/"%byte.

Fixpoint b64encode_std (s : bytes) : bytes :=
  match s with
  | [] => []
  | [x] =>
      let n := Z_of_byte x in
      [b64_char (n / 4); b64_char (n mod 4 * 16); "="%byte; "="%byte]
  | [x; y] =>
      let n := Z_of_byte x in
      let m := Z_of_byte y in
      [b64_char (n / 4); b64_char (n mod 4 * 16 + m / 16);
       b64_char (m mod 16 * 4); "="%byte]
  | x :: y :: z :: rest =>
      let n := Z_of_byte x in
      let m := Z_of_byte y in
      let l := Z_of_byte z in
      b64_char (n / 4) :: b64_char (n mod 4 * 16 + m / 16)
      :: b64_char (m mod 16 * 4 + l / 64) :: b64_char (l mod 64)
      :: b64encode_std rest
  end.

Definition str_decimal (n : Z) : bytes :=
  b (DecimalString.NilZero.string_of_int (Z.to_int n)).

(** * Properties *)

(** ** The receiver: one iteration of the loop, in direct style *)

Section ReceiverFacts.

Implicit Types (r : Receiver) (log : list bytes) (data : bytes).

Lemma feed_loop_nil {St} (gm : bytes -> M St unit) fuel (s : Receiver * St) :
  feed_loop gm fuel [] s = (s, Ok tt).
Proof. destruct fuel; reflexivity. Qed.

(** One iteration of the loop, for any handler. *)
Lemma feed_loop_unfold {St} (gm : bytes -> M St unit) fuel data r (st : St) :
  feed_loop gm (S fuel) data (r, st) =
  if 0 <? len data then
    let buf := _buffer r ++ slice_to (Z.min (_to_recv r) (len data)) data in
    if len data <? _to_recv r then
      ((mkReceiver (_recv_state r) buf (_to_recv r - len data), st), Ok tt)
    else
      let data' := slice_from (_to_recv r) data in
      if bool_decide (_recv_state r = RSTATE_PREFIX) then
        match unpack_I buf with
        | Ok n =>
            feed_loop gm fuel data'
              (if 0 <? n then mkReceiver RSTATE_BODY [] n else reset_receive, st)
        | Raise e => ((mkReceiver (_recv_state r) buf (_to_recv r), st), Raise e)
        | OutOfFuel => ((mkReceiver (_recv_state r) buf (_to_recv r), st), OutOfFuel)
        end
      else if bool_decide (_recv_state r = RSTATE_BODY) then
        match gm buf st with
        | (st', Ok _) => feed_loop gm fuel data' (reset_receive, st')
        | (st', Raise e) => ((reset_receive, st'), Raise e)
        | (st', OutOfFuel) => ((reset_receive, st'), OutOfFuel)
        end
      else ((mkReceiver (_recv_state r) buf (_to_recv r), st), Raise unknown_state)
  else ((r, st), Ok tt).
Proof.
  destruct r as [state buf n]. cbn [feed_loop].
  destruct (0 <? len data); [|reflexivity].
  cbn -[Z.ltb Z.min slice_to slice_from unpack_I bool_decide feed_loop].
  unfold bind, self, set_buffer, set_to_recv, modify.
  cbn -[Z.ltb Z.min slice_to slice_from unpack_I bool_decide feed_loop].
  destruct (len data <? n).
  { now rewrite feed_loop_nil. }
  destruct (bool_decide (state = RSTATE_PREFIX)).
  { unfold lift_res. destruct (unpack_I _) as [m| |]; try reflexivity.
    cbn -[Z.ltb Z.min slice_to slice_from unpack_I bool_decide feed_loop].
    destruct (0 <? m); reflexivity. }
  destruct (bool_decide (state = RSTATE_BODY)); [|reflexivity].
  unfold on_snd. cbn -[Z.ltb Z.min slice_to slice_from unpack_I bool_decide feed_loop].
  destruct (gm _ st) as [st' [[]| |]]; reflexivity.
Qed.

Lemma feed_loop_S fuel data r log :
  feed_loop record_message (S fuel) data (r, log) =
  if 0 <? len data then
    let buf := _buffer r ++ slice_to (Z.min (_to_recv r) (len data)) data in
    if len data <? _to_recv r then
      ((mkReceiver (_recv_state r) buf (_to_recv r - len data), log), Ok tt)
    else
      let data' := slice_from (_to_recv r) data in
      if bool_decide (_recv_state r = RSTATE_PREFIX) then
        match unpack_I buf with
        | Ok n =>
            feed_loop record_message fuel data'
              (if 0 <? n then mkReceiver RSTATE_BODY [] n else reset_receive, log)
        | Raise e => ((mkReceiver (_recv_state r) buf (_to_recv r), log), Raise e)
        | OutOfFuel => ((mkReceiver (_recv_state r) buf (_to_recv r), log), OutOfFuel)
        end
      else if bool_decide (_recv_state r = RSTATE_BODY) then
        feed_loop record_message fuel data' (reset_receive, log ++ [buf])
      else ((mkReceiver (_recv_state r) buf (_to_recv r), log), Raise unknown_state)
  else ((r, log), Ok tt).
Proof. rewrite feed_loop_unfold. reflexivity. Qed.

Lemma slice_to_nonneg {A} (k : Z) (l : list A) :
  0 <= k -> slice_to k l = firstn (Z.to_nat k) l.
Proof. intros H. unfold slice_to. destruct (Z.ltb_spec k 0); [lia | reflexivity]. Qed.

Lemma slice_from_nonneg {A} (k : Z) (l : list A) :
  0 <= k -> slice_from k l = skipn (Z.to_nat k) l.
Proof. intros H. unfold slice_from. destruct (Z.ltb_spec k 0); [lia | reflexivity]. Qed.

Lemma slice_to_all {A} (k : Z) (l : list A) : len l <= k -> slice_to k l = l.
Proof.
  intros H. unfold len in H. rewrite slice_to_nonneg by lia.
  apply firstn_all2. lia.
Qed.

Lemma Z_of_byte_range (x : byte) : 0 <= Z_of_byte x < 256.
Proof.
  unfold Z_of_byte. pose proof (Byte.to_N_bounded x). lia.
Qed.

Lemma unpack_I_range s n : unpack_I s = Ok n -> 0 <= n < 2 ^ 32.
Proof.
  destruct s as [|b3 [|b2 [|b1 [|b0 [|]]]]]; try discriminate.
  intros [= <-].
  pose proof (Z_of_byte_range b3). pose proof (Z_of_byte_range b2).
  pose proof (Z_of_byte_range b1). pose proof (Z_of_byte_range b0).
  change (2 ^ 24) with 16777216. change (2 ^ 16) with 65536.
  change (2 ^ 8) with 256. change (2 ^ 32) with 4294967296. lia.
Qed.

Lemma unpack_I_four s : len s = 4 -> exists n, unpack_I s = Ok n.
Proof.
  unfold len. destruct s as [|b3 [|b2 [|b1 [|b0 [|]]]]]; cbn; try lia.
  intros _. eexists. reflexivity.
Qed.

(** With bytes still missing, every iteration consumes input: the fuel
    beyond [length data + 1] is never used. *)
Lemma feed_loop_fuel f1 : forall f2 data r log,
  1 <= _to_recv r -> (length data < f1)%nat -> (length data < f2)%nat ->
  feed_loop record_message f1 data (r, log) = feed_loop record_message f2 data (r, log).
Proof.
  induction f1 as [|f1 IH]; intros f2 data r log Hr H1 H2; [lia|].
  destruct f2 as [|f2]; [lia|].
  rewrite !feed_loop_S.
  destruct (Z.ltb_spec 0 (len data)) as [Hd|Hd]; [|reflexivity].
  cbv zeta.
  destruct (Z.ltb_spec (len data) (_to_recv r)) as [Hlt|Hge]; [reflexivity|].
  assert (Hshort : (length (slice_from (_to_recv r) data) < length data)%nat).
  { rewrite slice_from_nonneg by lia. rewrite length_skipn. unfold len in *. lia. }
  destruct (bool_decide (_recv_state r = RSTATE_PREFIX)).
  { destruct (unpack_I _) as [n| |] eqn:Hn; try reflexivity.
    apply IH; [|lia|lia].
    destruct (Z.ltb_spec 0 n); cbn; unfold PREFIX_LENGTH; lia. }
  destruct (bool_decide (_recv_state r = RSTATE_BODY)); [|reflexivity].
  apply IH; [cbn; unfold PREFIX_LENGTH; lia|lia|lia].
Qed.

(** One iteration of [feed], without fuel. *)
Lemma feed_step data r log :
  1 <= _to_recv r ->
  feed record_message data (r, log) =
  if 0 <? len data then
    let buf := _buffer r ++ slice_to (Z.min (_to_recv r) (len data)) data in
    if len data <? _to_recv r then
      ((mkReceiver (_recv_state r) buf (_to_recv r - len data), log), Ok tt)
    else
      let data' := slice_from (_to_recv r) data in
      if bool_decide (_recv_state r = RSTATE_PREFIX) then
        match unpack_I buf with
        | Ok n =>
            feed record_message data'
              (if 0 <? n then mkReceiver RSTATE_BODY [] n else reset_receive, log)
        | Raise e => ((mkReceiver (_recv_state r) buf (_to_recv r), log), Raise e)
        | OutOfFuel => ((mkReceiver (_recv_state r) buf (_to_recv r), log), OutOfFuel)
        end
      else if bool_decide (_recv_state r = RSTATE_BODY) then
        feed record_message data' (reset_receive, log ++ [buf])
      else ((mkReceiver (_recv_state r) buf (_to_recv r), log), Raise unknown_state)
  else ((r, log), Ok tt).
Proof.
  intros Hr. unfold feed. rewrite feed_loop_S.
  destruct (Z.ltb_spec 0 (len data)) as [Hd|Hd]; [|reflexivity].
  cbv zeta.
  destruct (Z.ltb_spec (len data) (_to_recv r)) as [Hlt|Hge]; [reflexivity|].
  assert (Hshort : (length (slice_from (_to_recv r) data) < length data)%nat).
  { rewrite slice_from_nonneg by lia. rewrite length_skipn. unfold len in *. lia. }
  destruct (bool_decide (_recv_state r = RSTATE_PREFIX)).
  { destruct (unpack_I _) as [n| |] eqn:Hn; try reflexivity.
    apply feed_loop_fuel; [|lia|lia].
    destruct (Z.ltb_spec 0 n); cbn; unfold PREFIX_LENGTH; lia. }
  destruct (bool_decide (_recv_state r = RSTATE_BODY)); [|reflexivity].
  apply feed_loop_fuel; [cbn; unfold PREFIX_LENGTH; lia|lia|lia].
Qed.

Lemma reset_receive_ok : receiver_ok reset_receive.
Proof. split; [cbn; unfold PREFIX_LENGTH; lia | left; split; reflexivity]. Qed.

Lemma feed_empty r log : feed record_message [] (r, log) = ((r, log), Ok tt).
Proof. reflexivity. Qed.

Lemma slice_from_length {A} (k : Z) (l : list A) : (length (slice_from k l) <= length l)%nat.
Proof. unfold slice_from. destruct (k <? 0); rewrite length_skipn; lia. Qed.

(** The fuel of [feed] is enough, whatever state the receiver is in: the
    loop ends when the handler's [got_message] does. *)
Lemma feed_loop_total {St} (gm : bytes -> M St unit) :
  (forall msg st, snd (gm msg st) <> OutOfFuel) ->
  forall fuel data r st,
    (1 <= _to_recv r /\ (length data <= fuel)%nat) \/ (length data < fuel)%nat ->
    snd (feed_loop gm fuel data (r, st)) <> OutOfFuel.
Proof.
  intros Hgm. induction fuel as [|fuel IH]; intros data r st Hf.
  { destruct data; [discriminate | cbn in Hf; lia]. }
  rewrite feed_loop_unfold.
  destruct (Z.ltb_spec 0 (len data)) as [Hd|Hd]; [|discriminate]. cbv zeta.
  destruct (Z.ltb_spec (len data) (_to_recv r)) as [Hlt|Hge]; [discriminate|].
  assert (Hnext : (length (slice_from (_to_recv r) data) <= fuel)%nat).
  { destruct Hf as [[Hr Hf]|Hf].
    - rewrite slice_from_nonneg by lia. rewrite length_skipn. unfold len in *. lia.
    - pose proof (slice_from_length (_to_recv r) data). lia. }
  destruct (bool_decide (_recv_state r = RSTATE_PREFIX)).
  { destruct (unpack_I _) as [n| |] eqn:Hn; [|discriminate|].
    - apply IH. left. split; [|exact Hnext].
      destruct (Z.ltb_spec 0 n); cbn; unfold PREFIX_LENGTH; lia.
    - destruct (_ ++ _) as [|? [|? [|? [|? [|]]]]]; discriminate. }
  destruct (bool_decide (_recv_state r = RSTATE_BODY)); [|discriminate].
  specialize (Hgm (_buffer r ++ slice_to (Z.min (_to_recv r) (len data)) data) st).
  destruct (gm _ st) as [st' [[]| |]]; cbn [snd] in *; [|discriminate|congruence].
  apply IH. left. split; [cbn; unfold PREFIX_LENGTH; lia | exact Hnext].
Qed.

Lemma feed_total {St} (gm : bytes -> M St unit) data r st :
  (forall msg st, snd (gm msg st) <> OutOfFuel) ->
  snd (feed gm data (r, st)) <> OutOfFuel.
Proof. intros Hgm. apply feed_loop_total; [exact Hgm | right; lia]. Qed.

(** A receiver in good order stays in good order through [feed], whatever
    the handler does and however the call ends. *)
Lemma feed_loop_keeps_ok {St} (gm : bytes -> M St unit) :
  forall fuel data r st,
    receiver_ok r -> receiver_ok (fst (fst (feed_loop gm fuel data (r, st)))).
Proof.
  induction fuel as [|fuel IH]; intros data r st Hr.
  { cbn. destruct (0 <? len data); exact Hr. }
  rewrite feed_loop_unfold.
  destruct (Z.ltb_spec 0 (len data)) as [Hd|Hd]; [|exact Hr]. cbv zeta.
  destruct (Z.ltb_spec (len data) (_to_recv r)) as [Hlt|Hge].
  { rewrite slice_to_all by lia. destruct Hr as [Hr Hst]. split; cbn; [lia|].
    unfold len in *. rewrite length_app.
    destruct Hst as [[Hst Hlen]|[Hst Hlen]]; [left|right]; split; auto; lia. }
  rewrite Z.min_l by lia.
  destruct Hr as [Hr Hst]. rewrite slice_to_nonneg by lia.
  destruct Hst as [[Hst Hlen]|[Hst Hlen]]; rewrite Hst.
  - rewrite bool_decide_eq_true_2 by reflexivity.
    destruct (unpack_I_four (_buffer r ++ firstn (Z.to_nat (_to_recv r)) data)) as [n Hn].
    { unfold len in *. rewrite length_app, length_firstn. unfold PREFIX_LENGTH in *. lia. }
    rewrite Hn. apply IH. apply unpack_I_range in Hn.
    destruct (Z.ltb_spec 0 n); [|apply reset_receive_ok].
    split; cbn; [lia|]. right. split; [reflexivity|]. unfold len. cbn. lia.
  - cbn [bool_decide decide_rel]. rewrite bool_decide_eq_false_2 by discriminate.
    rewrite bool_decide_eq_true_2 by reflexivity.
    destruct (gm _ st) as [st' [[]| |]]; [apply IH| |]; apply reset_receive_ok.
Qed.

(** The chunk ends before the field does. *)
Lemma feed_partial data r log :
  0 < len data < _to_recv r ->
  feed record_message data (r, log) =
  ((mkReceiver (_recv_state r) (_buffer r ++ data) (_to_recv r - len data), log), Ok tt).
Proof.
  intros [H0 Ht]. rewrite feed_step by lia.
  destruct (Z.ltb_spec 0 (len data)); [|lia]. cbv zeta.
  destruct (Z.ltb_spec (len data) (_to_recv r)); [|lia].
  rewrite slice_to_all by lia. reflexivity.
Qed.

(** The chunk completes the field. *)
Lemma feed_full data r log :
  receiver_ok r -> _to_recv r <= len data ->
  feed record_message data (r, log) =
  feed record_message (skipn (Z.to_nat (_to_recv r)) data)
    (field_done (_recv_state r) (_buffer r ++ firstn (Z.to_nat (_to_recv r)) data) log).
Proof.
  intros [Hr Hst] Ht. rewrite feed_step by lia.
  destruct (Z.ltb_spec 0 (len data)); [|lia]. cbv zeta.
  destruct (Z.ltb_spec (len data) (_to_recv r)); [lia|].
  rewrite Z.min_l by lia.
  rewrite slice_to_nonneg, slice_from_nonneg by lia.
  unfold field_done.
  destruct Hst as [[Hst Hlen]|[Hst _]]; rewrite Hst.
  - rewrite bool_decide_eq_true_2 by reflexivity.
    destruct (unpack_I_four (_buffer r ++ firstn (Z.to_nat (_to_recv r)) data)) as [n Hn].
    { unfold len in *. rewrite length_app, length_firstn. unfold PREFIX_LENGTH in *. lia. }
    rewrite Hn. reflexivity.
  - reflexivity.
Qed.

Lemma field_done_ok st field log :
  (st = RSTATE_PREFIX /\ len field = PREFIX_LENGTH) \/ st = RSTATE_BODY ->
  receiver_ok (fst (field_done st field log)).
Proof.
  intros H. unfold field_done.
  destruct H as [[-> Hlen]| ->].
  - rewrite bool_decide_eq_true_2 by reflexivity.
    destruct (unpack_I_four field Hlen) as [n Hn]. rewrite Hn.
    apply unpack_I_range in Hn.
    destruct (Z.ltb_spec 0 n); cbn [fst]; [|apply reset_receive_ok].
    split; cbn; [lia|]. right. split; [reflexivity|]. unfold len. cbn. lia.
  - cbn [fst]. apply reset_receive_ok.
Qed.

Lemma field_done_feed_ok data r log :
  receiver_ok r -> _to_recv r <= len data ->
  receiver_ok
    (fst (field_done (_recv_state r) (_buffer r ++ firstn (Z.to_nat (_to_recv r)) data) log)).
Proof.
  intros [Hr Hst] Ht. apply field_done_ok.
  destruct Hst as [[Hst Hlen]|[Hst _]]; [left|right; exact Hst].
  split; [exact Hst|].
  unfold len in *. rewrite length_app, length_firstn. lia.
Qed.

Lemma skipn_shorter (t : Z) data :
  1 <= t -> t <= len data ->
  (length (skipn (Z.to_nat t) data) < length data)%nat.
Proof. intros. rewrite length_skipn. unfold len in *. lia. Qed.

(** [feed] always returns on a receiver in good order, and leaves it in
    good order. *)
Lemma feed_returns (k : nat) : forall data r log,
  (length data <= k)%nat -> receiver_ok r ->
  exists r' log', feed record_message data (r, log) = ((r', log'), Ok tt)
                  /\ receiver_ok r'.
Proof.
  induction k as [|k IH]; intros data r log Hk Hr.
  - destruct data; [|cbn in Hk; lia]. rewrite feed_empty. eauto.
  - destruct (Z.ltb_spec 0 (len data)) as [H0|H0].
    2:{ destruct data; [|unfold len in H0; cbn in H0; lia]. rewrite feed_empty. eauto. }
    destruct (Z.ltb_spec (len data) (_to_recv r)) as [Hlt|Hge].
    + rewrite feed_partial by lia. do 2 eexists. split; [reflexivity|].
      destruct Hr as [Hr Hst]. split; cbn; [lia|].
      unfold len in *. rewrite length_app.
      destruct Hst as [[Hst Hlen]|[Hst Hlen]]; [left|right]; split; auto; lia.
    + rewrite feed_full by assumption.
      pose proof (field_done_feed_ok data r log Hr Hge) as Hok.
      destruct (field_done _ _ log) as [r1 log1]. cbn [fst] in Hok.
      apply IH; [|exact Hok].
      destruct Hr as [Hr _].
      pose proof (skipn_shorter (_to_recv r) data Hr Hge). lia.
Qed.

(** Feeding two chunks one after the other is feeding their
    concatenation. *)
Lemma feed_app_bounded (k : nat) : forall c1 c2 r log,
  (length c1 <= k)%nat -> receiver_ok r ->
  (feed record_message c1 ;;; feed record_message c2) (r, log)
  = feed record_message (c1 ++ c2) (r, log).
Proof.
  induction k as [|k IH]; intros c1 c2 r log Hk Hr.
  - destruct c1; [|cbn in Hk; lia]. reflexivity.
  - destruct (Z.ltb_spec 0 (len c1)) as [H0|H0].
    2:{ destruct c1; [|unfold len in H0; cbn in H0; lia]. reflexivity. }
    destruct (Z.ltb_spec (len c1) (_to_recv r)) as [Hlt|Hge].
    + unfold bind. rewrite feed_partial by lia.
      destruct (Z.ltb_spec 0 (len c2)) as [H2|H2].
      2:{ destruct c2; [|unfold len in H2; cbn in H2; lia].
          rewrite feed_empty, app_nil_r, feed_partial by lia. reflexivity. }
      destruct (Z.ltb_spec (len c2) (_to_recv r - len c1)) as [Hlt2|Hge2].
      * rewrite !feed_partial; cbn [_to_recv _buffer _recv_state];
          unfold len in *; rewrite ?length_app; try lia.
        rewrite app_assoc. do 3 f_equal. lia.
      * assert (Hr1 : receiver_ok
                  (mkReceiver (_recv_state r) (_buffer r ++ c1) (_to_recv r - len c1))).
        { destruct Hr as [Hr Hst]. split; cbn; [lia|].
          unfold len in *. rewrite length_app.
          destruct Hst as [[Hst Hlen]|[Hst Hlen]]; [left|right]; split; auto; lia. }
        rewrite (feed_full c2) by (cbn; try assumption; lia).
        rewrite (feed_full (c1 ++ c2))
          by (try assumption; unfold len in *; rewrite length_app; lia).
        cbn [_to_recv _buffer _recv_state].
        rewrite firstn_app, skipn_app.
        rewrite (firstn_all2 c1), (skipn_all2 c1) by (unfold len in *; lia).
        replace (Z.to_nat (_to_recv r) - length c1)%nat
          with (Z.to_nat (_to_recv r - len c1)) by (unfold len; lia).
        rewrite app_assoc. reflexivity.
    + rewrite (feed_full (c1 ++ c2))
        by (try assumption; unfold len in *; rewrite length_app; lia).
      unfold bind. rewrite (feed_full c1) by assumption.
      rewrite firstn_app, skipn_app.
      replace (Z.to_nat (_to_recv r) - length c1)%nat with 0%nat by (unfold len in *; lia).
      cbn [firstn skipn]. rewrite app_nil_r.
      pose proof (field_done_feed_ok c1 r log Hr Hge) as Hok.
      destruct (field_done _ _ log) as [r1 log1]. cbn [fst] in Hok.
      apply (IH _ c2 r1 log1); [|exact Hok].
      destruct Hr as [Hr _].
      pose proof (skipn_shorter (_to_recv r) c1 Hr Hge). lia.
Qed.

Lemma feed_app c1 c2 r log :
  receiver_ok r ->
  (feed record_message c1 ;;; feed record_message c2) (r, log)
  = feed record_message (c1 ++ c2) (r, log).
Proof. apply (feed_app_bounded (length c1)). lia. Qed.

(** Chunking does not matter: the calls of [feed] on the chunks do what
    one call on the whole stream does. *)
Lemma feed_all_concat chunks : forall r log,
  receiver_ok r ->
  feed_all chunks (r, log) = feed record_message (concat chunks) (r, log).
Proof.
  induction chunks as [|c cs IH]; intros r log Hr; [reflexivity|].
  cbn [feed_all concat]. rewrite <- feed_app by assumption.
  unfold bind.
  destruct (feed_returns (length c) c r log (le_n _) Hr) as (r' & log' & -> & Hr').
  apply IH. exact Hr'.
Qed.

(** ** The receiver against the stream *)

Lemma assembling_reset : assembling [] reset_receive.
Proof.
  split; [cbn; unfold PREFIX_LENGTH; lia|]. left.
  split; [reflexivity|]. split; [reflexivity|].
  exists []. split; [constructor | reflexivity].
Qed.

Lemma assembling_ok stream r : assembling stream r -> receiver_ok r.
Proof.
  intros [Hr [(Hst & Hlen & _)|(Hst & done & prefix & _ & _ & Hp)]];
    (split; [exact Hr|]); [left; auto | right].
  split; [exact Hst|]. apply unpack_I_range in Hp. lia.
Qed.

(** Once all of the stream is whole frames, the receiver is as after a
    reset. *)
Lemma assembling_frames_reset done : whole_frames done -> assembling done reset_receive.
Proof.
  intros Hd. split; [cbn; unfold PREFIX_LENGTH; lia|]. left.
  split; [reflexivity|]. split; [reflexivity|].
  exists done. split; [exact Hd | cbn; rewrite app_nil_r; reflexivity].
Qed.

(** A call of [feed] that returns keeps the receiver in step with the
    stream, whatever the handler does. *)
Lemma feed_loop_assembling {St} (gm : bytes -> M St unit) :
  forall fuel data r st stream,
    assembling stream r ->
    snd (feed_loop gm fuel data (r, st)) = Ok tt ->
    assembling (stream ++ data) (fst (fst (feed_loop gm fuel data (r, st)))).
Proof.
  assert (Hnil : forall data, ~ 0 < len data -> data = []).
  { intros [|x data] H; [reflexivity|]. unfold len in H. cbn in H. lia. }
  induction fuel as [|fuel IH]; intros data r st stream Hr.
  { cbn. destruct (Z.ltb_spec 0 (len data)) as [Hd|Hd]; [discriminate|].
    intros _. rewrite (Hnil data) by lia. rewrite app_nil_r. exact Hr. }
  rewrite feed_loop_unfold.
  destruct (Z.ltb_spec 0 (len data)) as [Hd|Hd].
  2:{ intros _. rewrite (Hnil data) by lia. rewrite app_nil_r. exact Hr. }
  cbv zeta.
  destruct (Z.ltb_spec (len data) (_to_recv r)) as [Hlt|Hge].
  { intros _. rewrite slice_to_all by lia. cbn [fst].
    destruct Hr as [Hr Hst]. split; [cbn; lia|]. cbn [_recv_state _buffer _to_recv].
    assert (Hsum : len (_buffer r ++ data) + (_to_recv r - len data)
                   = len (_buffer r) + _to_recv r).
    { unfold len. rewrite length_app. lia. }
    rewrite Hsum.
    destruct Hst as [(Hst & Hlen & done & Hdone & ->)
                    |(Hst & done & prefix & Hdone & -> & Hp)]; [left|right].
    - split; [exact Hst|]. split; [exact Hlen|].
      exists done. split; [exact Hdone|]. rewrite <- app_assoc. reflexivity.
    - split; [exact Hst|]. exists done, prefix. split; [exact Hdone|].
      split; [|exact Hp]. rewrite <- !app_assoc. reflexivity. }
  rewrite Z.min_l by lia.
  destruct Hr as [Hr Hst].
  rewrite slice_to_nonneg, slice_from_nonneg by lia.
  set (k := Z.to_nat (_to_recv r)).
  assert (Hk : len (firstn k data) = _to_recv r).
  { unfold len in *. rewrite length_firstn. subst k. lia. }
  assert (Hstream : forall s0, (s0 ++ firstn k data) ++ skipn k data = s0 ++ data).
  { intros s0. rewrite <- app_assoc, firstn_skipn. reflexivity. }
  destruct Hst as [(Hst & Hlen & done & Hdone & ->)
                  |(Hst & done & prefix & Hdone & -> & Hp)]; rewrite Hst.
  - rewrite bool_decide_eq_true_2 by reflexivity.
    assert (H4 : len (_buffer r ++ firstn k data) = 4).
    { unfold len in *. rewrite length_app. unfold PREFIX_LENGTH in *. lia. }
    destruct (unpack_I_four _ H4) as [n Hn]. rewrite Hn.
    intros Hret. rewrite <- Hstream. apply IH; [|exact Hret].
    pose proof (unpack_I_range _ _ Hn) as Hrange.
    destruct (Z.ltb_spec 0 n) as [Hpos|Hzero].
    + split; [cbn; lia|]. right. split; [reflexivity|].
      exists done, (_buffer r ++ firstn k data). split; [exact Hdone|].
      cbn [_buffer _to_recv]. split; [|exact Hn].
      rewrite app_nil_r, <- app_assoc. reflexivity.
    + replace ((done ++ _buffer r) ++ firstn k data)
        with (done ++ (_buffer r ++ firstn k data) ++ [])
        by (rewrite app_nil_r, app_assoc; reflexivity).
      apply assembling_frames_reset.
      apply frames_snoc; [exact Hdone|].
      rewrite Hn. f_equal. change (len (@nil byte)) with 0. lia.
  - cbn [bool_decide decide_rel]. rewrite bool_decide_eq_false_2 by discriminate.
    rewrite bool_decide_eq_true_2 by reflexivity.
    destruct (gm _ st) as [st' [[]| |]]; [|discriminate..].
    intros Hret. rewrite <- Hstream. apply IH; [|exact Hret].
    replace ((done ++ prefix ++ _buffer r) ++ firstn k data)
      with (done ++ prefix ++ (_buffer r ++ firstn k data))
      by (rewrite <- !app_assoc; reflexivity).
    apply assembling_frames_reset.
    apply frames_snoc; [exact Hdone|].
    rewrite Hp. f_equal. unfold len in *. rewrite length_app. lia.
Qed.

End ReceiverFacts.

(** ** Framing: [send_message]'s prefix against [feed] *)

Section Framing.

Lemma Z_of_byte_of_Z z : Z_of_byte (byte_of_Z z) = z mod 256.
Proof.
  unfold Z_of_byte, byte_of_Z.
  pose proof (Z.mod_pos_bound z 256 eq_refl) as Hm.
  destruct (Byte.of_N (Z.to_N (z mod 256))) as [x|] eqn:Hx.
  - apply Byte.to_of_N in Hx. rewrite Hx. lia.
  - apply Byte.of_N_None_iff in Hx. lia.
Qed.

Lemma unpack_pack n s : pack_I n = Ok s -> unpack_I s = Ok n.
Proof.
  unfold pack_I.
  destruct (Z.leb_spec 0 n) as [H0|]; [|discriminate].
  destruct (Z.ltb_spec n (2 ^ 32)) as [H1|]; [|discriminate].
  cbn [andb]. intros [= <-]. unfold unpack_I.
  rewrite !Z_of_byte_of_Z. f_equal.
  change (2 ^ 24) with 16777216. change (2 ^ 16) with 65536.
  change (2 ^ 8) with 256. change (2 ^ 32) with 4294967296 in H1.
  Z.div_mod_to_equations. lia.
Qed.

Lemma pack_length n s : pack_I n = Ok s -> length s = 4%nat.
Proof.
  unfold pack_I. destruct (_ && _); [|discriminate]. now intros [= <-].
Qed.

Lemma encode_inv msg frame :
  encode msg = Ok frame ->
  exists prefix, pack_I (len msg) = Ok prefix /\ frame = prefix ++ msg.
Proof.
  unfold encode. destruct (pack_I (len msg)) as [prefix| |]; try discriminate.
  intros [= <-]. eauto.
Qed.

(** [send_message] accepts every payload shorter than [2 ^ 32] bytes. *)
Lemma encode_returns msg :
  len msg < 2 ^ 32 -> exists prefix, encode msg = Ok (prefix ++ msg).
Proof.
  intros H. unfold encode, pack_I.
  destruct (Z.leb_spec 0 (len msg)) as [_|H0]; [|unfold len in H0; lia].
  destruct (Z.ltb_spec (len msg) (2 ^ 32)); [|lia].
  cbn [andb]. eauto.
Qed.

(** One whole frame fed in one call to a freshly reset receiver. *)
Lemma feed_frame msg frame log :
  encode msg = Ok frame ->
  feed record_message frame (reset_receive, log)
  = ((reset_receive, match msg with [] => log | _ => log ++ [msg] end), Ok tt).
Proof.
  intros He. apply encode_inv in He as (prefix & Hp & ->).
  pose proof (pack_length _ _ Hp) as Hl.
  rewrite feed_full; [|apply reset_receive_ok|].
  2:{ cbn. unfold len, PREFIX_LENGTH. rewrite length_app. lia. }
  cbn [_to_recv _buffer _recv_state reset_receive app].
  change (Z.to_nat PREFIX_LENGTH) with 4%nat.
  rewrite firstn_app, skipn_app, Hl, Nat.sub_diag.
  rewrite firstn_all2, skipn_all2 by lia. cbn [firstn skipn app]. rewrite app_nil_r.
  unfold field_done. rewrite bool_decide_eq_true_2 by reflexivity.
  rewrite (unpack_pack _ _ Hp).
  destruct msg as [|x msg]; [reflexivity|].
  destruct (Z.ltb_spec 0 (len (x :: msg))) as [_|H0]; [|unfold len in H0; cbn in H0; lia].
  apply unpack_pack, unpack_I_range in Hp.
  rewrite feed_full.
  2:{ split; cbn; [unfold len; cbn; lia|]. right. split; [reflexivity|].
      unfold len in *. cbn in *. lia. }
  2:{ cbn. lia. }
  cbn [_to_recv _buffer _recv_state app].
  replace (Z.to_nat (len (x :: msg))) with (length (x :: msg)) by (unfold len; lia).
  rewrite firstn_all, skipn_all. reflexivity.
Qed.

End Framing.

(** C1 (as amended): for every payload [P] that [send_message] can frame
    (fewer than [2 ^ 32] bytes), feeding the frame to a fresh receiver makes
    exactly one [got_message] call, with [P], when [P] is not empty, and no
    call when [P] is empty, however the bytes of the frame are cut into the
    chunks of successive [feed] calls; the receiver ends reset. *)
Theorem frame_roundtrip_any_chunking (P : bytes) (chunks : list bytes) :
  encode P = Ok (concat chunks) ->
  feed_all chunks (reset_receive, [])
  = ((reset_receive, match P with [] => [] | _ => [P] end), Ok tt).
Proof.
  intros He. rewrite feed_all_concat by apply reset_receive_ok.
  rewrite (feed_frame P _ [] He). destruct P; reflexivity.
Qed.

Lemma frame_roundtrip_any_chunking_witness :
  encode (b "key") = Ok (concat [[x00; x00]; [x00; x03; "k"%byte]; b "ey"]) /\
  feed_all [[x00; x00]; [x00; x03; "k"%byte]; b "ey"] (reset_receive, [])
  = ((reset_receive, [b "key"]), Ok tt).
Proof.
  split; [reflexivity|].
  apply (frame_roundtrip_any_chunking (b "key")
           [[x00; x00]; [x00; x03; "k"%byte]; b "ey"]).
  reflexivity.
Defined.

(** C1, as stated, fails at the empty payload: its frame is the four zero
    bytes, and feeding them makes no [got_message] call at all. *)
Lemma empty_payload_not_delivered :
  encode [] = Ok [x00; x00; x00; x00] /\
  feed_all [[x00; x00; x00; x00]] (reset_receive, []) = ((reset_receive, []), Ok tt).
Proof. split; reflexivity. Qed.

(** C4 (as amended): a frame with a declared payload length of 0 is
    consumed without a [got_message] call; after its prefix the receiver is
    reset (prefix state, empty buffer, four bytes missing), so it does not
    wait for a body and reads what follows as the next frame. *)
Theorem zero_length_frame_skipped (rest : bytes) (log : list bytes) :
  feed record_message ([x00; x00; x00; x00] ++ rest) (reset_receive, log)
  = feed record_message rest (reset_receive, log).
Proof.
  rewrite feed_full; [|apply reset_receive_ok|].
  2:{ cbn. unfold len, PREFIX_LENGTH. cbn [length]. lia. }
  reflexivity.
Qed.

(** C4, as stated, fails: the zero prefix alone yields no [got_message]
    call. *)
Lemma zero_prefix_no_message :
  feed record_message [x00; x00; x00; x00] (reset_receive, [])
  = ((reset_receive, []), Ok tt).
Proof. reflexivity. Qed.

(** C5 (as amended): after every call of [feed], whatever the chunks fed so
    far, whatever the handler's [got_message] does and however the call
    ends, [_to_recv] is at least 1, the state is ["prefix"] or ["body"],
    and the length of the buffer plus [_to_recv] is 4 in the prefix state
    and below [2 ^ 32] in the body state. After every call that returns,
    the receiver is in step with the bytes fed so far: they are a run of
    whole frames and then the part of the current frame that has arrived,
    and the length of the buffer plus [_to_recv] is the size of the field
    being assembled: 4 in the prefix state, the length the prefix of the
    current frame declares in the body state. With the base class's
    [got_message] every call returns. *)
Theorem receiver_invariant :
  (forall (St : Type) (gm : bytes -> M St unit) (data : bytes) (r : Receiver) (st : St),
      receiver_ok r -> receiver_ok (fst (fst (feed gm data (r, st))))) /\
  (forall (St : Type) (gm : bytes -> M St unit) (data : bytes) (r : Receiver) (st : St)
          (stream : bytes),
      assembling stream r ->
      snd (feed gm data (r, st)) = Ok tt ->
      assembling (stream ++ data) (fst (fst (feed gm data (r, st))))) /\
  (forall (stream : bytes) (r : Receiver), assembling stream r -> receiver_ok r) /\
  (forall chunks : list bytes,
      exists r log,
        feed_all chunks (reset_receive, []) = ((r, log), Ok tt) /\
        receiver_ok r /\ assembling (concat chunks) r).
Proof.
  split; [|split; [|split]].
  - intros St gm data r st Hr. apply feed_loop_keeps_ok. exact Hr.
  - intros St gm data r st stream Hr Hret. apply feed_loop_assembling; assumption.
  - exact assembling_ok.
  - intros chunks. rewrite feed_all_concat by apply reset_receive_ok.
    destruct (feed_returns (length (concat chunks)) (concat chunks) reset_receive []
                (le_n _) reset_receive_ok) as (r & log & Hfeed & Hok).
    exists r, log. split; [exact Hfeed|]. split; [exact Hok|].
    pose proof (feed_loop_assembling record_message (S (length (concat chunks)))
                  (concat chunks) reset_receive [] [] assembling_reset) as H.
    unfold feed in Hfeed. rewrite Hfeed in H. apply H. reflexivity.
Qed.

(** C5, as stated, fails: after three bytes of a prefix the buffer holds
    three bytes and [_to_recv] is 1. *)
Lemma buffer_exceeds_to_recv :
  feed record_message (b "abc") (reset_receive, [])
  = ((mkReceiver RSTATE_PREFIX (b "abc") 1, []), Ok tt)
  /\ _to_recv (mkReceiver RSTATE_PREFIX (b "abc") 1)
     < len (_buffer (mkReceiver RSTATE_PREFIX (b "abc") 1)).
Proof. split; reflexivity. Qed.

(** ** Rules for assertions *)

Section Triples.
Context {S : Type}.
Implicit Types (P E : S -> Prop).

Lemma triple_ret {A} P E (Q : A -> S -> Prop) (a : A) :
  (forall s, P s -> Q a s) -> triple P (ret a) Q E.
Proof. intros H s Hs. cbn. auto. Qed.

Lemma triple_bind {A B} P E (Q : A -> S -> Prop) (R : B -> S -> Prop)
    (m : M S A) (k : A -> M S B) :
  triple P m Q E -> (forall a, triple (Q a) (k a) R E) ->
  triple P (bind m k) R E.
Proof.
  intros Hm Hk s Hs. specialize (Hm s Hs). unfold bind.
  destruct (m s) as [s' [a| |]]; auto. apply Hk. exact Hm.
Qed.

Lemma triple_weaken {A} P P' E (Q Q' : A -> S -> Prop) (m : M S A) :
  triple P' m Q' E -> (forall s, P s -> P' s) ->
  (forall a s, Q' a s -> Q a s) -> triple P m Q E.
Proof.
  intros Hm HP HQ s Hs. specialize (Hm s (HP s Hs)).
  destruct (m s) as [s' [a| |]]; auto.
Qed.

Lemma triple_lift_res {A} P (r : res A) :
  triple P (lift_res r) (fun _ => P) P.
Proof. intros s Hs. unfold lift_res. destruct r; exact Hs. Qed.

Lemma triple_raise {A} P (Q : A -> S -> Prop) e : triple P (raise e) Q P.
Proof. intros s Hs. exact Hs. Qed.

Lemma triple_get P : triple P get (fun s0 s => s = s0 /\ P s) P.
Proof. intros s Hs. cbn. auto. Qed.

Lemma triple_modify P E (Q : unit -> S -> Prop) (f : S -> S) :
  (forall s, P s -> Q tt (f s)) -> triple P (modify f) Q E.
Proof. intros H s Hs. cbn. auto. Qed.

Lemma preserves_try_pass P (m : M S unit) :
  preserves P m -> preserves P (try_pass m).
Proof.
  intros Hm s Hs. specialize (Hm s Hs). unfold try_pass.
  destruct (m s) as [s' [[]| |]]; exact Hm.
Qed.

Lemma preserves_bind {A B} P (m : M S A) (k : A -> M S B) :
  preserves P m -> (forall a, preserves P (k a)) -> preserves P (bind m k).
Proof. intros Hm Hk. eapply triple_bind; [exact Hm | exact Hk]. Qed.

Lemma preserves_for_each {A} P (l : list A) (body : A -> M S unit) :
  (forall x, preserves P (body x)) -> preserves P (for_each l body).
Proof.
  intros Hb. induction l as [|x l IH]; cbn [for_each].
  - apply triple_ret. auto.
  - apply preserves_bind; auto.
Qed.

Lemma preserves_if {A} P (c : bool) (m1 m2 : M S A) :
  preserves P m1 -> preserves P m2 -> preserves P (if c then m1 else m2).
Proof. destruct c; auto. Qed.

End Triples.

(** [feed] keeps whatever the handler's [got_message] keeps. *)
Lemma preserves_feed_loop {St} (I : St -> Prop) (gm : bytes -> M St unit) :
  (forall msg, preserves I (gm msg)) ->
  forall fuel data,
    preserves (fun rs : Receiver * St => I (snd rs)) (feed_loop gm fuel data).
Proof.
  intros Hgm. set (J := fun rs : Receiver * St => I (snd rs)).
  assert (Hself : triple J self (fun _ => J) J) by (intros s Hs; exact Hs).
  assert (Hmod : forall f : Receiver -> Receiver,
            preserves J (modify (fun s : Receiver * St => (f (fst s), snd s)))).
  { intros f s Hs. exact Hs. }
  assert (Hsb : forall x, preserves J (set_buffer x)) by (intros x s Hs; exact Hs).
  assert (Hst : forall x, preserves J (set_recv_state x)) by (intros x s Hs; exact Hs).
  assert (Htr : forall x, preserves J (set_to_recv x)) by (intros x s Hs; exact Hs).
  assert (Hon : forall msg, preserves J (on_snd (gm msg))).
  { intros msg [r s] Hs. specialize (Hgm msg s Hs). unfold on_snd. cbn [snd fst].
    destruct (gm msg s) as [s' [[]| |]]; exact Hgm. }
  induction fuel as [|fuel IH]; intros data; cbn [feed_loop].
  - destruct (0 <? len data); [intros s Hs; exact Hs | apply triple_ret; auto].
  - destruct (0 <? len data); [|apply triple_ret; auto].
    apply preserves_bind; [exact Hself|]. intros r.
    apply preserves_bind; [apply Hsb|]. intros _.
    apply preserves_if.
    { apply preserves_bind; [apply Htr|]. intros _. apply IH. }
    apply preserves_if.
    { apply preserves_bind; [exact Hself|]. intros r1.
      apply preserves_bind; [apply triple_lift_res|]. intros n.
      apply preserves_bind; [apply Htr|]. intros _.
      apply preserves_bind; [apply Hsb|]. intros _.
      apply preserves_bind; [|intros _; apply IH].
      apply preserves_if; [apply Hst|].
      apply preserves_bind; [apply Hst|]. intros _. apply Htr. }
    apply preserves_if; [|apply triple_raise].
    apply preserves_bind; [apply Htr|]. intros _.
    apply preserves_bind; [apply Hst|]. intros _.
    apply preserves_bind; [exact Hself|]. intros r1.
    apply preserves_bind; [apply Hsb|]. intros _.
    apply preserves_bind; [apply Hon|]. intros _. apply IH.
Qed.

(** ** The registries of the manager *)

Section ManagerFacts.
Variable cls : Type.
Variable gm : cls -> bytes -> script.

Local Abbreviation World := (World cls).
Local Abbreviation agree := (@registries_agree cls).

Lemma triple_fst {A} (I : World -> Prop) (m : M World A) w :
  preserves I m -> I w -> I (fst (m w)).
Proof.
  intros Hm Hw. specialize (Hm w Hw). destruct (m w) as [w' [a| |]]; exact Hm.
Qed.

Lemma triple_getitem {V} (P : World -> Prop) (d : World -> gmap nat V) k :
  triple P (getitem d k) (fun v w => P w /\ d w !! k = Some v) P.
Proof.
  intros w Hw. unfold getitem. destruct (d w !! k) eqn:Hk; auto.
Qed.

Lemma agree_emit e : preserves agree (emit e).
Proof. intros w Hw. exact Hw. Qed.

Lemma agree_new_socket :
  triple agree new_socket (fun _ => agree) agree.
Proof. intros w Hw. exact Hw. Qed.

Lemma agree_new_proto c s : preserves agree (new_proto c s).
Proof. intros w Hw. exact Hw. Qed.

Lemma agree_del_s2r s :
  triple agree (delitem s2r with_s2r s)
    (fun _ w => dom (s2r w) = dom (s2w w) ∖ {[s]} /\ s ∈ dom (s2w w)) agree.
Proof.
  intros w Hw. unfold delitem; cbv beta. destruct (s2r w !! s) eqn:Hs; [|exact Hw].
  cbn. unfold registries_agree in Hw. rewrite dom_delete_L, <- Hw.
  split; [reflexivity|]. apply elem_of_dom. eauto.
Qed.

Lemma agree_del_s2w s :
  triple (fun w : World => dom (s2r w) = dom (s2w w) ∖ {[s]} /\ s ∈ dom (s2w w))
    (delitem s2w with_s2w s) (fun _ => agree) agree.
Proof.
  intros w [Hw Hs]. unfold delitem; cbv beta.
  apply elem_of_dom in Hs as [v Hv]. rewrite Hv.
  unfold registries_agree. cbn. rewrite dom_delete_L. exact Hw.
Qed.

(** [del self.s2r[s]; del self.s2w[s]] and what follows. *)
Lemma agree_del_both {A} s (k : M World A) :
  preserves agree k ->
  preserves agree (delitem s2r with_s2r s ;;; delitem s2w with_s2w s ;;; k).
Proof.
  intros Hk. eapply triple_bind; [apply agree_del_s2r|]. intros ?.
  eapply triple_bind; [apply agree_del_s2w|]. intros ?. exact Hk.
Qed.

Lemma agree_del_both_end s :
  preserves agree (delitem s2r with_s2r s ;;; delitem s2w with_s2w s).
Proof.
  eapply triple_bind; [apply agree_del_s2r|]. intros ?. apply agree_del_s2w.
Qed.

(** [self.s2r[s] = pi] and then [self.s2w[s]] set to the empty string. *)
Lemma agree_set_both s pi :
  triple agree
    (setitem s2r with_s2r s pi ;;; setitem s2w with_s2w s [])
    (fun _ w => agree w /\ s2r w !! s = Some pi /\ s2w w !! s = Some []) agree.
Proof.
  intros w Hw. cbn. unfold registries_agree in *. cbn.
  rewrite !dom_insert_L, Hw, !lookup_insert_eq. auto.
Qed.

Lemma agree_send_message target message :
  preserves agree (send_message target message).
Proof.
  unfold send_message.
  eapply triple_bind; [apply triple_getitem|]. intros buff w [Hw Hb].
  cbn. unfold registries_agree in *. cbn. rewrite dom_insert_L, <- Hw.
  apply elem_of_dom_2 in Hb. rewrite <- Hw in Hb. set_solver.
Qed.

Lemma socket_of_registered protocol (w : World) s :
  socket_of protocol w = Some s -> s2r w !! s = Some protocol.
Proof.
  unfold socket_of. intros H.
  destruct (List.find _ _) as [[k v]|] eqn:Hf; [|discriminate].
  cbn in H. injection H as ->.
  apply List.find_some in Hf as [Hin Hd]. cbn in Hd.
  apply bool_decide_eq_true_1 in Hd as ->.
  apply list_elem_of_In, elem_of_map_to_list in Hin. exact Hin.
Qed.

Lemma agree_close protocol : preserves agree (close protocol).
Proof.
  unfold close. eapply triple_bind; [apply triple_get|]. intros w0.
  eapply triple_weaken with (P' := agree) (Q' := fun _ => agree); [|tauto|auto].
  destruct (socket_of protocol w0) as [s|]; [|apply triple_raise].
  apply preserves_bind; [apply agree_emit|]. intros ?.
  apply preserves_bind; [apply preserves_try_pass, agree_emit|]. intros ?.
  apply agree_del_both_end.
Qed.

Lemma agree_proto_send_message p msg : preserves agree (proto_send_message p msg).
Proof.
  unfold proto_send_message.
  eapply triple_bind; [apply triple_getitem|]. intros o.
  eapply triple_weaken with (P' := agree) (Q' := fun _ => agree); [|tauto|auto].
  apply preserves_bind; [apply triple_lift_res|]. intros tosend.
  apply agree_send_message.
Qed.

Lemma agree_run_action p a : preserves agree (run_action p a).
Proof.
  destruct a; cbn [run_action];
    [apply agree_proto_send_message | apply agree_close | apply agree_emit ..].
Qed.

Lemma agree_got_message p msg : preserves agree (got_message gm p msg).
Proof.
  unfold got_message.
  apply preserves_bind; [apply agree_emit|]. intros ?.
  eapply triple_bind; [apply triple_getitem|]. intros o.
  eapply triple_weaken with (P' := agree) (Q' := fun _ => agree); [|tauto|auto].
  apply preserves_bind; [apply preserves_for_each, agree_run_action|]. intros ?.
  destruct (snd _); [apply triple_raise | apply triple_ret; auto].
Qed.

(** [feed] on a protocol object keeps what its [got_message] keeps,
    when the receiver's own fields do not matter. *)
Lemma preserves_proto_feed (I : World -> Prop) p data :
  (forall msg, preserves I (got_message gm p msg)) ->
  (forall r w, I w -> I (store_recv p r w)) ->
  preserves I (proto_feed gm p data).
Proof.
  intros Hgm Hstore w Hw. unfold proto_feed.
  destruct (heap w !! p) as [o|]; [|exact Hw].
  pose proof (preserves_feed_loop I (got_message gm p) Hgm
                (S (length data)) data (p_recv o, w) Hw) as H.
  unfold feed. destruct (feed_loop _ _ _ _) as [[r' w'] [[]| |]];
    cbn [snd] in H; apply Hstore; exact H.
Qed.

Lemma agree_proto_feed p data : preserves agree (proto_feed gm p data).
Proof.
  apply preserves_proto_feed; [apply agree_got_message|].
  intros r w Hw. exact Hw.
Qed.

Lemma agree_handle_error ls s : preserves agree (handle_error ls s).
Proof.
  unfold handle_error. apply preserves_if.
  - apply preserves_bind; [apply preserves_try_pass, agree_emit|]. intros ?.
    intros w Hw. unfold delitem; cbv beta. destruct (listen_s w !! s); exact Hw.
  - eapply triple_bind; [apply triple_getitem|]. intros proto.
    eapply triple_weaken with (P' := agree) (Q' := fun _ => agree); [|tauto|auto].
    apply preserves_bind; [apply agree_emit|]. intros ?.
    apply agree_del_both_end.
Qed.

Lemma agree_handle_readable os ls s : preserves agree (handle_readable gm os ls s).
Proof.
  unfold handle_readable. apply preserves_if.
  - eapply triple_bind; [apply triple_getitem|]. intros protoclass.
    eapply triple_weaken with (P' := agree) (Q' := fun _ => agree); [|tauto|auto].
    apply preserves_bind; [apply triple_lift_res|]. intros ?.
    apply preserves_bind; [apply agree_new_socket|]. intros client.
    apply preserves_bind; [apply agree_emit|]. intros ?.
    apply preserves_bind; [apply agree_new_proto|]. intros proto.
    eapply triple_weaken; [apply agree_set_both|auto|]. cbn. tauto.
  - eapply triple_bind; [apply triple_getitem|]. intros proto.
    eapply triple_weaken with (P' := agree) (Q' := fun _ => agree); [|tauto|auto].
    apply preserves_bind; [apply agree_emit|]. intros ?.
    apply preserves_bind; [apply triple_lift_res|]. intros data.
    apply preserves_if; [apply agree_proto_feed|].
    apply preserves_bind; [apply agree_emit|]. intros ?.
    apply agree_del_both. apply preserves_try_pass, agree_emit.
Qed.

Lemma agree_handle_writable os s : preserves agree (handle_writable os s).
Proof.
  unfold handle_writable.
  eapply triple_bind; [apply triple_getitem|]. intros buff.
  destruct (len buff =? 0); [apply triple_ret; tauto|].
  assert (Hset : forall v, triple (fun w : World => agree w /\ s2w w !! s = Some buff)
            (setitem s2w with_s2w s v) (fun _ => agree) agree).
  { intros v w [Hw Hb]. cbn. unfold registries_agree in *. cbn.
    rewrite dom_insert_L, <- Hw. apply elem_of_dom_2 in Hb.
    rewrite <- Hw in Hb. set_solver. }
  eapply triple_bind with (Q := fun _ => agree).
  - destruct (max_write <=? len buff);
      (eapply triple_bind; [apply Hset|]; intros ?; apply triple_ret; auto).
  - intros tosend. apply preserves_bind; [apply agree_emit|]. intros ?.
    apply triple_lift_res.
Qed.

Lemma agree_iteration os sel : preserves agree (iteration gm os sel).
Proof.
  unfold iteration. eapply triple_bind; [apply triple_get|]. intros w0.
  eapply triple_weaken with (P' := agree) (Q' := fun _ => agree); [|tauto|auto].
  apply preserves_if; [apply triple_ret; auto|].
  destruct sel as [tr tw he| |]; [|apply triple_ret; auto|apply triple_raise].
  apply preserves_bind; [apply preserves_for_each, agree_handle_error|]. intros ?.
  apply preserves_bind; [apply preserves_for_each, agree_handle_readable|]. intros ?.
  apply preserves_for_each, agree_handle_writable.
Qed.

Lemma agree_connect os a proto :
  triple agree (connect os a proto)
    (fun pi w => agree w /\ s2r w !! pi = Some pi /\ s2w w !! pi = Some []) agree.
Proof.
  unfold connect. eapply triple_bind; [apply agree_new_socket|]. intros s.
  eapply triple_bind; [apply agree_emit|]. intros ?.
  eapply triple_bind; [apply triple_lift_res|]. intros ?.
  eapply triple_bind with (Q := fun pi w => agree w /\ pi = s).
  { intros w Hw. cbn. auto. }
  intros pi. intros w [Hw ->]. revert w Hw.
  eapply triple_bind with (Q := fun _ w => dom (s2r w) = {[s]} ∪ dom (s2w w)
                                           /\ s2r w !! s = Some s).
  { intros w Hw. cbn. unfold registries_agree in Hw.
    rewrite dom_insert_L, Hw, lookup_insert_eq. auto. }
  intros ?. eapply triple_bind with (Q := fun _ w => agree w /\ s2r w !! s = Some s
                                                     /\ s2w w !! s = Some []).
  { intros w [Hw Hs]. cbn. unfold registries_agree. cbn.
    rewrite dom_insert_L, Hw, lookup_insert_eq. auto. }
  intros ?. apply triple_ret. auto.
Qed.

End ManagerFacts.

(** C9: every operation of the manager that changes the registries
    ([connect], the accept and the peer-close branches of the read loop,
    [close], the error branch, and so a whole pass of [run]) leaves [s2r]
    and [s2w] with the same sockets as keys, however it ends, and a
    connection registered by [connect] or by an accept starts with an empty
    outbound queue. *)
Theorem registries_stay_aligned (cls : Type) (gm : cls -> bytes -> script)
    (os : OS) (w : World cls) :
  registries_agree w ->
  (forall a proto,
      registries_agree (fst (connect os a proto w)) /\
      forall w' pi, connect os a proto w = (w', Ok pi) ->
        s2r w' !! next_socket w = Some pi /\ s2w w' !! next_socket w = Some []) /\
  (forall ls s,
      registries_agree (fst (handle_readable gm os ls s w)) /\
      forall w', s ∈ ls -> handle_readable gm os ls s w = (w', Ok tt) ->
        is_Some (s2r w' !! next_socket w) /\ s2w w' !! next_socket w = Some []) /\
  (forall protocol, registries_agree (fst (close protocol w))) /\
  (forall ls s, registries_agree (fst (handle_error ls s w))) /\
  (forall sel, registries_agree (fst (iteration gm os sel w))).
Proof.
  intros Hw. split; [|split; [|split; [|split]]].
  - intros a proto. split.
    + pose proof (agree_connect cls os a proto w Hw) as H.
      destruct (connect os a proto w) as [w' [pi| |]]; cbn; tauto.
    + intros w' pi.
      unfold connect, bind, new_socket, emit, lift_res, new_proto, setitem, modify, ret.
      cbn. destruct (os_connect os a) as [[]| |]; cbn; [|discriminate..].
      intros [= <- <-]. cbn. rewrite !lookup_insert_eq. auto.
  - intros ls s. split.
    + apply triple_fst; [apply agree_handle_readable | exact Hw].
    + intros w' Hs. unfold handle_readable. rewrite bool_decide_eq_true_2 by exact Hs.
      unfold bind, getitem, new_socket, emit, lift_res, new_proto, setitem, modify, ret.
      cbn. destruct (listen_s w !! s); cbn; [|discriminate].
      destruct (os_accept os s) as [[]| |]; cbn; [|discriminate..].
      intros [= <-]. cbn. rewrite !lookup_insert_eq. eauto.
  - intros protocol. apply triple_fst; [apply agree_close | exact Hw].
  - intros ls s. apply triple_fst; [apply agree_handle_error | exact Hw].
  - intros sel. apply triple_fst; [apply agree_iteration | exact Hw].
Qed.

Lemma registries_stay_aligned_witness :
  registries_agree (@init unit) /\
  registries_agree (fst (connect (os_fine 5026 []) (b "192.0.2.5", 5026) tt init)).
Proof.
  assert (H0 : registries_agree (@init unit)) by reflexivity.
  split; [exact H0|].
  apply (registries_stay_aligned unit base_got_message (os_fine 5026 []) init H0).
Defined.

(** Both branches of the write loop hand the whole queue to one [send]
    and leave the queue empty: the bytes go out in the order queued, but
    never in pieces of [max_write]. *)
Lemma handle_writable_sends_all {cls} (os : OS) (s : socket) (w : World cls) buff :
  s2w w !! s = Some buff -> 0 < len buff ->
  trace (fst (handle_writable os s w)) = trace w ++ [EvSend s buff] /\
  s2w (fst (handle_writable os s w)) = <[s := []]> (s2w w).
Proof.
  intros Hb Hlen. unfold handle_writable, bind, getitem. cbv beta. rewrite Hb.
  destruct (Z.eqb_spec (len buff) 0) as [|_]; [lia|].
  destruct (Z.leb_spec max_write (len buff)) as [Hge|Hlt].
  - unfold setitem, emit, modify, lift_res, ret. cbn.
    destruct (os_send os s buff); cbn; auto.
  - rewrite slice_to_all by lia.
    rewrite slice_from_nonneg by (unfold max_write; lia).
    rewrite skipn_all2 by (unfold len, max_write in *; lia).
    unfold setitem, emit, modify, lift_res, ret. cbn.
    destruct (os_send os s buff); cbn; auto.
Qed.

(** C2, on the code: with 2049 bytes queued on a writable connection, the
    branch taken for [len(buff) >= self.max_write] hands the whole queue,
    2049 bytes, to one [send] and leaves nothing queued; [max_write] is
    2048. *)
Theorem write_exceeds_max_write :
  s2w (world_with_queue 2049) !! 1%nat = Some (repeat "A"%byte 2049) /\
  snd (handle_writable (os_fine 5026 []) 1%nat (world_with_queue 2049)) = Ok tt /\
  last (trace (fst (handle_writable (os_fine 5026 []) 1%nat (world_with_queue 2049))))
  = Some (EvSend 1%nat (repeat "A"%byte 2049)) /\
  s2w (fst (handle_writable (os_fine 5026 []) 1%nat (world_with_queue 2049))) !! 1%nat
  = Some [] /\
  max_write < len (repeat "A"%byte 2049).
Proof. vm_compute. repeat split; reflexivity. Qed.

(** C7: [listen] returns what the bind ended on, the port the system
    assigned, whatever [port] asked for, and raises what the bind raises;
    [connect] makes the transport-level connect in the caller, returns only
    when that has returned, runs the protocol's [setup] after it and before
    returning, registers the connection, and hands a failure of the
    transport-level connect to its caller with nothing set up or
    registered. *)
Theorem listen_connect_synchronous (cls : Type) (os : OS) (w : World cls) :
  (forall host port proto,
      snd (listen os host port proto w) = os_bind os host port /\
      match os_bind os host port with
      | Ok _ => listen_s (fst (listen os host port proto w)) !! next_socket w = Some proto
      | _ => listen_s (fst (listen os host port proto w)) = listen_s w
      end) /\
  (forall a proto,
      match os_connect os a with
      | Ok _ =>
          snd (connect os a proto w) = Ok (next_socket w) /\
          trace (fst (connect os a proto w))
          = trace w ++ [EvConnect (next_socket w) a; EvSetup (next_socket w)] /\
          s2r (fst (connect os a proto w)) !! next_socket w = Some (next_socket w) /\
          s2w (fst (connect os a proto w)) !! next_socket w = Some []
      | Raise e =>
          snd (connect os a proto w) = Raise e /\
          trace (fst (connect os a proto w)) = trace w ++ [EvConnect (next_socket w) a] /\
          s2r (fst (connect os a proto w)) = s2r w /\
          s2w (fst (connect os a proto w)) = s2w w
      | OutOfFuel =>
          snd (connect os a proto w) = OutOfFuel /\
          trace (fst (connect os a proto w)) = trace w ++ [EvConnect (next_socket w) a]
      end).
Proof.
  split.
  - intros host port proto.
    unfold listen, bind, new_socket, emit, lift_res, getitem, setitem, modify, ret.
    cbn. destruct (os_bind os host port) as [p| |]; cbn; auto.
    rewrite !lookup_insert_eq. cbn. rewrite lookup_insert_eq. auto.
  - intros a proto.
    unfold connect, bind, new_socket, emit, lift_res, new_proto, setitem, modify, ret.
    cbn. destruct (os_connect os a) as [[]| |]; cbn; auto.
    rewrite !lookup_insert_eq, <- app_assoc. auto.
Qed.

(** ** The error phase of a pass *)

Section ErrorPhase.
Variable cls : Type.
Variable gm : cls -> bytes -> script.
Variable t0 : list event.
Variable p : nat.
Variable s : socket.

Local Abbreviation World := (World cls).
Local Abbreviation G := (@deregistered cls t0 p s).
Local Abbreviation H := (@untouched cls t0 s).

Lemma triple_from_pre {S A} (P : S -> Prop) (phi : Prop) (m : M S A) Q E :
  (forall x, P x -> phi) -> (phi -> triple P m Q E) -> triple P m Q E.
Proof. intros Hphi Hm x Hx. exact (Hm (Hphi x Hx) x Hx). Qed.

Lemma G_H w : G w -> H w.
Proof. intros (_ & _ & Hn & t & Ht & Hq & _). split; eauto. Qed.

Lemma G_emit e : touches s e = false -> preserves G (emit e).
Proof.
  intros He w (H1 & H2 & H3 & t & Ht & Hq & Hc). cbn.
  repeat split; auto. exists (t ++ [e]). cbn. rewrite Ht, <- app_assoc.
  split; [reflexivity|]. split; [|set_solver].
  apply Forall_app; split; auto.
Qed.

Lemma H_emit e : touches s e = false -> preserves H (emit e).
Proof.
  intros He w (H3 & t & Ht & Hq). cbn.
  split; auto. exists (t ++ [e]). cbn. rewrite Ht, <- app_assoc.
  split; [reflexivity|]. apply Forall_app; split; auto.
Qed.

Lemma G_del_s2r k : preserves G (delitem s2r with_s2r k).
Proof.
  intros w Hw. unfold delitem; cbv beta. destruct (s2r w !! k) eqn:Hk; [|exact Hw].
  destruct Hw as (H1 & H2 & H3 & Ht). repeat split; auto. cbn.
  destruct (decide (k = s)) as [->|Hne];
    [apply lookup_delete_eq | rewrite lookup_delete_ne; auto].
Qed.

Lemma G_del_s2w k : preserves G (delitem s2w with_s2w k).
Proof.
  intros w Hw. unfold delitem; cbv beta. destruct (s2w w !! k) eqn:Hk; [|exact Hw].
  destruct Hw as (H1 & H2 & H3 & Ht). repeat split; auto. cbn.
  destruct (decide (k = s)) as [->|Hne];
    [apply lookup_delete_eq | rewrite lookup_delete_ne; auto].
Qed.

Lemma G_del_listen k : preserves G (delitem listen_s with_listen_s k).
Proof.
  intros w Hw. unfold delitem; cbv beta. destruct (listen_s w !! k); exact Hw.
Qed.

Lemma H_del_listen k : preserves H (delitem listen_s with_listen_s k).
Proof.
  intros w Hw. unfold delitem; cbv beta. destruct (listen_s w !! k); exact Hw.
Qed.

Lemma G_set_s2r k v : k <> s -> preserves G (setitem s2r with_s2r k v).
Proof.
  intros Hne w (H1 & H2 & H3 & Ht). repeat split; auto. cbn.
  rewrite lookup_insert_ne; auto.
Qed.

Lemma G_set_s2w k v : k <> s -> preserves G (setitem s2w with_s2w k v).
Proof.
  intros Hne w (H1 & H2 & H3 & Ht). repeat split; auto. cbn.
  rewrite lookup_insert_ne; auto.
Qed.

Lemma G_new_socket : triple G new_socket (fun c w => G w /\ c <> s) G.
Proof.
  intros w (H1 & H2 & H3 & Ht). cbn.
  split; [|lia]. split; [exact H1|]. split; [exact H2|].
  split; [unfold with_next_socket; cbn; lia | exact Ht].
Qed.

Lemma G_new_proto c k : preserves G (@new_proto cls c k).
Proof.
  unfold new_proto. apply preserves_bind.
  { intros w Hw. exact Hw. }
  intros ?. apply preserves_bind; [apply G_emit; reflexivity|].
  intros ?. apply triple_ret. auto.
Qed.

(** A key found in a registry of connections is not [s]. *)
Lemma G_s2r_found w k v : G w /\ s2r w !! k = Some v -> k <> s.
Proof. intros [(H1 & _) Hk] ->. congruence. Qed.

Lemma G_s2w_found w k v : G w /\ s2w w !! k = Some v -> k <> s.
Proof. intros [(_ & H2 & _) Hk] ->. congruence. Qed.

Lemma G_send_message target message : preserves G (send_message target message).
Proof.
  unfold send_message.
  eapply triple_bind; [apply triple_getitem|]. intros buff.
  eapply triple_from_pre; [intros w Hw; exact (G_s2w_found w _ _ Hw)|]. intros Hne.
  eapply triple_weaken with (P' := G) (Q' := fun _ => G); [|tauto|auto].
  apply G_set_s2w. exact Hne.
Qed.

Lemma G_del_both_end k :
  preserves G (delitem s2r with_s2r k ;;; delitem s2w with_s2w k).
Proof. apply preserves_bind; [apply G_del_s2r|]. intros ?. apply G_del_s2w. Qed.

Lemma G_close protocol : preserves G (close protocol).
Proof.
  unfold close. eapply triple_bind; [apply triple_get|]. intros w0.
  eapply triple_weaken with (P' := G) (Q' := fun _ => G); [|tauto|auto].
  destruct (socket_of protocol w0) as [k|]; [|apply triple_raise].
  apply preserves_bind; [apply G_emit; reflexivity|]. intros ?.
  apply preserves_bind; [apply preserves_try_pass, G_emit; reflexivity|]. intros ?.
  apply G_del_both_end.
Qed.

Lemma G_run_action q a : preserves G (run_action q a).
Proof.
  destruct a; cbn [run_action].
  - unfold proto_send_message.
    eapply triple_bind; [apply triple_getitem|]. intros o.
    eapply triple_weaken with (P' := G) (Q' := fun _ => G); [|tauto|auto].
    apply preserves_bind; [apply triple_lift_res|]. intros tosend.
    apply G_send_message.
  - apply G_close.
  - apply G_emit; reflexivity.
  - apply G_emit; reflexivity.
Qed.

Lemma G_got_message q msg : preserves G (got_message gm q msg).
Proof.
  unfold got_message.
  apply preserves_bind; [apply G_emit; reflexivity|]. intros ?.
  eapply triple_bind; [apply triple_getitem|]. intros o.
  eapply triple_weaken with (P' := G) (Q' := fun _ => G); [|tauto|auto].
  apply preserves_bind; [apply preserves_for_each, G_run_action|]. intros ?.
  destruct (snd _); [apply triple_raise | apply triple_ret; auto].
Qed.

Lemma G_proto_feed q data : preserves G (proto_feed gm q data).
Proof.
  apply preserves_proto_feed; [apply G_got_message|].
  intros r w Hw. exact Hw.
Qed.

Lemma G_handle_error ls x : preserves G (handle_error ls x).
Proof.
  unfold handle_error. apply preserves_if.
  - apply preserves_bind; [apply preserves_try_pass, G_emit; reflexivity|]. intros ?.
    apply G_del_listen.
  - eapply triple_bind; [apply triple_getitem|]. intros proto.
    eapply triple_weaken with (P' := G) (Q' := fun _ => G); [|tauto|auto].
    apply preserves_bind; [apply G_emit; reflexivity|]. intros ?.
    apply G_del_both_end.
Qed.

Lemma touches_other k : k <> s -> bool_decide (k = s) = false.
Proof. intros. apply bool_decide_eq_false_2. assumption. Qed.

Lemma G_handle_readable os ls x : preserves G (handle_readable gm os ls x).
Proof.
  unfold handle_readable. apply preserves_if.
  - eapply triple_bind; [apply triple_getitem|]. intros protoclass.
    eapply triple_weaken with (P' := G) (Q' := fun _ => G); [|tauto|auto].
    apply preserves_bind; [apply triple_lift_res|]. intros ?.
    eapply triple_bind; [apply G_new_socket|]. intros client.
    eapply triple_from_pre; [intros w Hw; exact (proj2 Hw)|]. intros Hne.
    eapply triple_weaken with (P' := G) (Q' := fun _ => G); [|tauto|auto].
    apply preserves_bind; [apply G_emit; reflexivity|]. intros ?.
    apply preserves_bind; [apply G_new_proto|]. intros proto.
    apply preserves_bind; [apply G_set_s2r; exact Hne|]. intros ?.
    apply G_set_s2w; exact Hne.
  - eapply triple_bind; [apply triple_getitem|]. intros proto.
    eapply triple_from_pre; [intros w Hw; exact (G_s2r_found w _ _ Hw)|]. intros Hne.
    eapply triple_weaken with (P' := G) (Q' := fun _ => G); [|tauto|auto].
    apply preserves_bind; [apply G_emit; cbn; apply touches_other, Hne|]. intros ?.
    apply preserves_bind; [apply triple_lift_res|]. intros data.
    apply preserves_if; [apply G_proto_feed|].
    apply preserves_bind; [apply G_emit; reflexivity|]. intros ?.
    apply preserves_bind; [apply G_del_s2r|]. intros ?.
    apply preserves_bind; [apply G_del_s2w|]. intros ?.
    apply preserves_try_pass, G_emit; reflexivity.
Qed.

Lemma G_handle_writable os x : preserves G (@handle_writable cls os x).
Proof.
  unfold handle_writable.
  eapply triple_bind; [apply triple_getitem|]. intros buff.
  eapply triple_from_pre; [intros w Hw; exact (G_s2w_found w _ _ Hw)|]. intros Hne.
  eapply triple_weaken with (P' := G) (Q' := fun _ => G); [|tauto|auto].
  destruct (len buff =? 0); [apply triple_ret; tauto|].
  apply preserves_bind.
  - destruct (max_write <=? len buff);
      (apply preserves_bind; [apply G_set_s2w; exact Hne|];
       intros ?; apply triple_ret; auto).
  - intros tosend.
    apply preserves_bind; [apply G_emit; cbn; apply touches_other, Hne|]. intros ?.
    apply triple_lift_res.
Qed.

End ErrorPhase.

Section ErrorPhaseSpec.
Variable cls : Type.
Variable gm : cls -> bytes -> script.

Local Abbreviation World := (World cls).

Lemma elem_of_keys {V} (m : gmap nat V) k : k ∈ keys m <-> is_Some (m !! k).
Proof.
  unfold keys. rewrite list_elem_of_fmap. split.
  - intros ([k' v] & -> & Hin). apply elem_of_map_to_list in Hin. eauto.
  - intros [v Hv]. exists (k, v). split; [reflexivity|].
    apply elem_of_map_to_list. exact Hv.
Qed.

Lemma preserves_for_each_in {S A} (P : S -> Prop) (l : list A) (body : A -> M S unit) :
  (forall x, x ∈ l -> preserves P (body x)) -> preserves P (for_each l body).
Proof.
  induction l as [|x l IH]; intros Hb; cbn [for_each].
  - apply triple_ret. auto.
  - apply preserves_bind; [apply Hb; left|].
    intros ?. apply IH. intros y Hy. apply Hb. right. exact Hy.
Qed.

Lemma H_handle_error t0 s ls x : preserves (@untouched cls t0 s) (handle_error ls x).
Proof.
  unfold handle_error. apply preserves_if.
  - apply preserves_bind; [apply preserves_try_pass, H_emit; reflexivity|]. intros ?.
    apply H_del_listen.
  - eapply triple_bind; [apply triple_getitem|]. intros proto.
    eapply triple_weaken with (P' := untouched t0 s) (Q' := fun _ => untouched t0 s);
      [|tauto|auto].
    apply preserves_bind; [apply H_emit; reflexivity|]. intros ?.
    apply preserves_bind; intros; intros w Hw; unfold delitem; cbv beta;
      [destruct (s2r w !! x) | destruct (s2w w !! x)]; exact Hw.
Qed.

(** The error branch on [x] leaves the entries of every other socket as
    they are. *)
Lemma handle_error_other ls x s' (v1 : option nat) (v2 : option bytes) :
  x <> s' ->
  preserves (fun w : World => s2r w !! s' = v1 /\ s2w w !! s' = v2) (handle_error ls x).
Proof.
  intros Hne. set (P := fun w : World => s2r w !! s' = v1 /\ s2w w !! s' = v2).
  assert (Hemit : forall e, preserves P (emit e)) by (intros e w Hw; exact Hw).
  unfold handle_error. apply preserves_if.
  - apply preserves_bind; [apply preserves_try_pass, Hemit|]. intros ?.
    intros w Hw. unfold delitem; cbv beta. destruct (listen_s w !! x); exact Hw.
  - eapply triple_bind; [apply triple_getitem|]. intros proto.
    eapply triple_weaken with (P' := P) (Q' := fun _ => P); [|tauto|auto].
    apply preserves_bind; [apply Hemit|]. intros ?.
    apply preserves_bind; intros; intros w [Hw1 Hw2]; unfold delitem; cbv beta;
      [destruct (s2r w !! x) | destruct (s2w w !! x)];
      unfold with_s2r, with_s2w; split; cbn; auto;
      rewrite lookup_delete_ne; auto.
Qed.

(** The error loop on a list that names [s], a registered connection:
    nothing is read or written, and when the loop completes, [s] is
    deregistered and its protocol was told. *)
Lemma error_phase_spec t0 s p ls : s ∉ ls ->
  forall he (w : World),
    untouched t0 s w -> s2r w !! s = Some p -> s ∈ he ->
    untouched t0 s (fst (for_each he (handle_error ls) w)) /\
    (snd (for_each he (handle_error ls) w) = Ok tt ->
     deregistered t0 p s (fst (for_each he (handle_error ls) w))).
Proof.
  intros Hls. induction he as [|x he IH]; intros w Hw Hs Hin.
  { inversion Hin. }
  cbn [for_each]. unfold bind.
  destruct (decide (x = s)) as [->|Hne].
  - assert (Hstep : untouched t0 s (fst (handle_error ls s w)) /\
              (snd (handle_error ls s w) = Ok tt ->
               deregistered t0 p s (fst (handle_error ls s w)))).
    { unfold handle_error. rewrite bool_decide_eq_false_2 by exact Hls.
      unfold bind, getitem, emit, delitem, modify. cbn. rewrite Hs. cbn.
      rewrite Hs. cbn.
      destruct Hw as (Hn & t & Ht & Hq).
      assert (Hq' : Forall (fun e => touches s e = false) (t ++ [EvOnClose p true])).
      { apply Forall_app. split; [exact Hq|]. repeat constructor. }
      destruct (s2w w !! s) eqn:Hsw; cbn.
      - split.
        + split; [exact Hn|]. exists (t ++ [EvOnClose p true]).
          cbn. rewrite Ht, <- app_assoc. auto.
        + intros _. split; [apply lookup_delete_eq|].
          split; [apply lookup_delete_eq|]. split; [exact Hn|].
          exists (t ++ [EvOnClose p true]). cbn. rewrite Ht, <- app_assoc.
          split; [reflexivity|]. split; [exact Hq'|]. set_solver.
      - split; [|discriminate].
        split; [exact Hn|]. exists (t ++ [EvOnClose p true]).
        cbn. rewrite Ht, <- app_assoc. auto. }
    destruct (handle_error ls s w) as [w1 [[]| |]]; cbn [fst snd] in Hstep;
      destruct Hstep as [H1 H2]; try (split; [exact H1 | discriminate]).
    specialize (H2 eq_refl).
    pose proof (triple_fst cls (deregistered t0 p s) (for_each he (handle_error ls)) w1
                  (preserves_for_each _ _ _ (G_handle_error cls t0 p s ls)) H2) as HG.
    split; [exact (G_H cls t0 p s _ HG) | intros _; exact HG].
  - apply elem_of_cons in Hin as [->|Hin]; [congruence|].
    pose proof (H_handle_error t0 s ls x w Hw) as H1.
    pose proof (handle_error_other ls x s (Some p) (s2w w !! s) Hne w
                  (conj Hs eq_refl)) as H2.
    destruct (handle_error ls x w) as [w1 [[]| |]];
      try (split; [exact H1 | discriminate]).
    apply IH; [exact H1 | exact (proj1 H2) | exact Hin].
Qed.

End ErrorPhaseSpec.




(** A socket reported both in error and readable: the error branch
    deregisters it, the read loop then looks it up, and [KeyError] ends the
    pass before socket 2 is read. *)
Example error_and_readable_raises :
  snd (iteration base_got_message (os_fine 5026 (b "x"))
         (Selected [1%nat; 2%nat] [] [1%nat]) two_connections) = Raise KeyError /\
  trace (fst (iteration base_got_message (os_fine 5026 (b "x"))
                (Selected [1%nat; 2%nat] [] [1%nat]) two_connections))
  = trace two_connections ++ [EvOnClose 1%nat true].
Proof. vm_compute. split; reflexivity. Qed.

(** ** The server's dispatch *)

Section ServerFacts.
Variables ID_PING ID_KEYBOARD ID_MOUSE ACTION_PRESS ACTION_RELEASE : bytes.

Local Abbreviation script_of :=
  (server_got_message ID_PING ID_KEYBOARD ID_MOUSE ACTION_PRESS ACTION_RELEASE).
Local Abbreviation gm :=
  (class_got_message ID_PING ID_KEYBOARD ID_MOUSE ACTION_PRESS ACTION_RELEASE).

Lemma violation_script msg :
  ID_PING <> ID_KEYBOARD ->
  violation ID_PING ID_KEYBOARD ID_MOUSE ACTION_PRESS ACTION_RELEASE msg ->
  script_of msg = ([AClose], None).
Proof.
  intros Hd. destruct msg as [|c msg']; [intros []|].
  cbn [violation server_got_message]. cbv zeta.
  intros [(H1 & H2 & H3) | (Hk & a & keyname & -> & Ha1 & Ha2)].
  - rewrite !bool_decide_eq_false_2 by assumption. reflexivity.
  - rewrite (bool_decide_eq_false_2 ([c] = ID_PING)) by congruence.
    rewrite (bool_decide_eq_true_2 _ Hk).
    rewrite !bool_decide_eq_false_2 by assumption. reflexivity.
Qed.

(** [close] on a registered protocol: its connection goes, and nothing
    else of the manager changes. *)
Lemma close_registered {cls} (w : World cls) protocol s :
  socket_of protocol w = Some s -> is_Some (s2w w !! s) ->
  snd (close protocol w) = Ok tt /\
  s2r (fst (close protocol w)) = delete s (s2r w) /\
  s2w (fst (close protocol w)) = delete s (s2w w) /\
  listen_s (fst (close protocol w)) = listen_s w /\
  _running (fst (close protocol w)) = _running w /\
  trace (fst (close protocol w))
  = trace w ++ [EvOnClose protocol false; EvSockClose s].
Proof.
  intros Hs [buff Hb]. pose proof (socket_of_registered _ _ _ _ Hs) as Hr.
  unfold close, bind, get. rewrite Hs.
  unfold emit, try_pass, delitem, modify. cbn. rewrite Hr. cbn. rewrite Hb. cbn.
  rewrite <- app_assoc. auto 10.
Qed.

End ServerFacts.




(** ** Discovery *)

Section DiscoverFacts.
Variable b64decode : bytes -> res bytes.
Variable py_int : bytes -> res Z.

Local Abbreviation parse := (advert_of b64decode py_int).
Local Abbreviation body := (on_recv b64decode py_int).

Implicit Types (found : list (list field)) (received : list recv_result).

(** One datagram that starts with the identifier and parses: appended
    unless already found. *)
Lemma on_datagram_parsed data addr t found :
  startswith BROADCAST_IDENTIFIER data = true ->
  parse (fst addr) data = Ok t ->
  on_datagram b64decode py_int data addr found
  = (if bool_decide (t ∈ found) then found else found ++ [t], Ok tt).
Proof.
  intros Hp Ht. unfold on_datagram. rewrite Hp. cbn [negb].
  unfold bind, lift_res, get. rewrite Ht.
  destruct (bool_decide (t ∈ found)); reflexivity.
Qed.

Lemma on_datagram_other data addr found :
  startswith BROADCAST_IDENTIFIER data = false ->
  on_datagram b64decode py_int data addr found = (found, Ok tt).
Proof. intros Hp. unfold on_datagram. rewrite Hp. reflexivity. Qed.

(** The loop of [discover] from any list [found0] without duplicates. *)
Lemma discover_loop_spec received : forall found0,
  NoDup found0 ->
  match for_each received body found0 with
  | (found, Ok _) =>
      NoDup found /\
      forall t, t ∈ found <->
        t ∈ found0 \/
        exists data addr, Datagram data addr ∈ received /\
          startswith BROADCAST_IDENTIFIER data = true /\ parse (fst addr) data = Ok t
  | (_, Raise e) =>
      exists data addr, Datagram data addr ∈ received /\
        startswith BROADCAST_IDENTIFIER data = true /\ parse (fst addr) data = Raise e
  | (_, OutOfFuel) =>
      exists data addr, Datagram data addr ∈ received /\
        startswith BROADCAST_IDENTIFIER data = true /\ parse (fst addr) data = OutOfFuel
  end.
Proof.
  induction received as [|r received IH]; intros found0 Hnd.
  { cbn. split; [exact Hnd|]. intros t. split; [auto|].
    intros [H|(data & addr & Hin & _)]; [exact H | inversion Hin]. }
  cbn [for_each]. unfold bind.
  assert (Hstep :
    (exists found1, body r found0 = (found1, Ok tt) /\ NoDup found1 /\
       forall t, t ∈ found1 <->
         t ∈ found0 \/ exists data addr, r = Datagram data addr /\
           startswith BROADCAST_IDENTIFIER data = true /\ parse (fst addr) data = Ok t) \/
    (exists data addr x, r = Datagram data addr /\
       startswith BROADCAST_IDENTIFIER data = true /\
       parse (fst addr) data = x /\ (forall t, x <> Ok t) /\
       body r found0 = (found0, match x with Ok _ => Ok tt | Raise e => Raise e
                                             | OutOfFuel => OutOfFuel end))).
  { destruct r as [|data addr]; cbn [on_recv].
    - left. exists found0. split; [reflexivity|]. split; [exact Hnd|].
      intros t. split; [auto|]. intros [H|(? & ? & ? & _)]; [exact H | discriminate].
    - destruct (startswith BROADCAST_IDENTIFIER data) eqn:Hp.
      2:{ left. exists found0. rewrite on_datagram_other by exact Hp.
          split; [reflexivity|]. split; [exact Hnd|].
          intros t. split; [auto|].
          intros [H|(d & a & [= <- <-] & Hp' & _)]; [exact H | congruence]. }
      destruct (parse (fst addr) data) as [t0| |] eqn:Ht.
      + left. rewrite (on_datagram_parsed _ _ t0) by assumption.
        destruct (bool_decide_reflect (t0 ∈ found0)) as [Hin|Hout].
        * exists found0. split; [reflexivity|]. split; [exact Hnd|].
          intros t. split; [auto|].
          intros [H|(d & a & [= <- <-] & _ & Ht')]; [exact H | congruence].
        * exists (found0 ++ [t0]). split; [reflexivity|]. split.
          { apply NoDup_app. split; [exact Hnd|]. split; [|apply NoDup_singleton].
            intros x Hx Hx'. apply list_elem_of_singleton in Hx'. congruence. }
          intros t. rewrite elem_of_app, list_elem_of_singleton. split.
          { intros [H| ->]; [auto|]. right. exists data, addr. auto. }
          { intros [H|(d & a & [= <- <-] & _ & Ht')]; [auto | right; congruence]. }
      + right. exists data, addr, (Raise e). repeat split; try assumption; try discriminate.
        unfold on_datagram. rewrite Hp. cbn [negb]. unfold bind, lift_res. rewrite Ht.
        reflexivity.
      + right. exists data, addr, OutOfFuel. repeat split; try assumption; try discriminate.
        unfold on_datagram. rewrite Hp. cbn [negb]. unfold bind, lift_res. rewrite Ht.
        reflexivity. }
  destruct Hstep as [(found1 & -> & Hnd1 & H1) | (data & addr & x & -> & Hp & Hx & Hno & ->)].
  - specialize (IH found1 Hnd1).
    destruct (for_each received body found1) as [found [[]| |]].
    + destruct IH as [Hnd2 H2]. split; [exact Hnd2|].
      intros t. rewrite H2, H1. split.
      * intros [[H|(d & a & -> & Hp & Ht)]|(d & a & Hin & Hp & Ht)]; [auto|right..].
        -- exists d, a. split; [left|auto].
        -- exists d, a. split; [right; exact Hin|auto].
      * intros [H|(d & a & Hin & Hp & Ht)]; [auto|].
        apply elem_of_cons in Hin as [<-|Hin].
        -- left. right. exists d, a. auto.
        -- right. exists d, a. auto.
    + destruct IH as (d & a & Hin & Hp & Ht). exists d, a. split; [right; exact Hin|auto].
    + destruct IH as (d & a & Hin & Hp & Ht). exists d, a. split; [right; exact Hin|auto].
  - destruct x as [t| |]; [exfalso; exact (Hno t eq_refl)| |];
      exists data, addr; (split; [left|auto]).
Qed.

(** The second element of every tuple is the address the datagram came
    from. *)
Lemma advert_of_ip ip data t : parse ip data = Ok t -> t !! 1%nat = Some (FStr ip).
Proof.
  unfold advert_of, rbind, list_setitem, list_getitem.
  set (tdata := FStr <$> split SEP _).
  intros H.
  repeat first [ case_bool_decide | case_match ]; try discriminate.
  injection H as <-.
  rewrite list_lookup_insert_ne by lia.
  apply list_lookup_insert_eq. assumption.
Qed.

Lemma startswith_app old rest : startswith old (old ++ rest) = true.
Proof.
  induction old as [|x old IH]; [reflexivity|].
  cbn. rewrite bool_decide_eq_true_2 by reflexivity. exact IH.
Qed.

Lemma remove_first_app old rest : remove_first old (old ++ rest) = rest.
Proof.
  assert (H : remove_first old (old ++ rest) = skipn (length old) (old ++ rest)).
  { destruct (old ++ rest) eqn:E; cbn [remove_first]; rewrite <- ?E, startswith_app;
      reflexivity. }
  rewrite H, skipn_app, Nat.sub_diag, skipn_all. reflexivity.
Qed.

Lemma split_app_sep piece rest :
  SEP ∉ piece -> split SEP (piece ++ SEP :: rest) = piece :: split SEP rest.
Proof.
  induction piece as [|x piece IH]; intros Hs.
  - cbn. rewrite bool_decide_eq_true_2 by reflexivity. reflexivity.
  - cbn. rewrite bool_decide_eq_false_2 by (intros ->; apply Hs; left).
    rewrite IH by (intros H; apply Hs; right; exact H). reflexivity.
Qed.

(** The fields of a well-formed advertisement, as the loop body splits
    them. *)
Lemma advertisement_fields hostname ip port :
  SEP ∉ hostname -> SEP ∉ ip ->
  split SEP (remove_first (BROADCAST_IDENTIFIER ++ [SEP]) (advertisement hostname ip port))
  = hostname :: ip :: split SEP port.
Proof.
  intros Hh Hi. unfold advertisement.
  rewrite (app_assoc BROADCAST_IDENTIFIER [SEP]), remove_first_app.
  cbn [app]. rewrite split_app_sep by exact Hh. rewrite split_app_sep by exact Hi.
  reflexivity.
Qed.

(** The [ip] text of the advertisement does not reach the result. *)
Lemma advert_of_ignores_ip src hostname ip1 ip2 port :
  SEP ∉ hostname -> SEP ∉ ip1 -> SEP ∉ ip2 ->
  parse src (advertisement hostname ip1 port) = parse src (advertisement hostname ip2 port).
Proof.
  intros Hh H1 H2. unfold advert_of. cbv zeta.
  rewrite !advertisement_fields by assumption.
  cbn [fmap list_fmap]. unfold rbind, list_getitem, list_setitem. cbn.
  destruct (b64decode hostname); reflexivity.
Qed.

Lemma split_no_sep piece : SEP ∉ piece -> split SEP piece = [piece].
Proof.
  induction piece as [|x piece IH]; intros Hs; [reflexivity|].
  cbn. rewrite bool_decide_eq_false_2 by (intros ->; apply Hs; left).
  rewrite IH by (intros H; apply Hs; right; exact H). reflexivity.
Qed.

(** The tuple made of a well-formed advertisement: the host name decoded,
    the address the datagram came from, the port as a number. *)
Lemma advert_of_advertisement src hostname ip port h n :
  SEP ∉ hostname -> SEP ∉ ip -> SEP ∉ port ->
  b64decode hostname = Ok h -> py_int port = Ok n ->
  parse src (advertisement hostname ip port) = Ok [FStr h; FStr src; FInt n].
Proof.
  intros Hh Hip Hp Hb Hi. unfold advert_of. cbv zeta.
  rewrite advertisement_fields by assumption.
  rewrite split_no_sep by exact Hp.
  cbn [fmap list_fmap].
  repeat (progress (unfold rbind, list_getitem, list_setitem, on_str; cbn;
                    rewrite ?Hb, ?Hi;
                    try (rewrite bool_decide_eq_true_2 by (cbn; lia)))).
  reflexivity.
Qed.

(** One step of the loop on a result that is no datagram with the
    identifier, or one that parses: the step returns. *)
Lemma on_recv_returns r found :
  (forall d a, r = Datagram d a -> startswith BROADCAST_IDENTIFIER d = true ->
     exists t, parse (fst a) d = Ok t) ->
  exists found1, body r found = (found1, Ok tt).
Proof.
  intros Hr. destruct r as [|d a]; cbn [on_recv]; [eexists; reflexivity|].
  destruct (startswith BROADCAST_IDENTIFIER d) eqn:Hp.
  - destruct (Hr d a eq_refl Hp) as [t Ht].
    rewrite (on_datagram_parsed _ _ t) by assumption. eexists; reflexivity.
  - rewrite on_datagram_other by exact Hp. eexists; reflexivity.
Qed.

(** One step of the loop on a datagram with the identifier that does not
    parse: the step ends as the parse does, and [found] is as it was. *)
Lemma on_datagram_malformed data addr e found :
  startswith BROADCAST_IDENTIFIER data = true ->
  parse (fst addr) data = Raise e ->
  on_datagram b64decode py_int data addr found = (found, Raise e).
Proof.
  intros Hp Ht. unfold on_datagram. rewrite Hp. cbn [negb].
  unfold bind, lift_res. rewrite Ht. reflexivity.
Qed.

(** The loop ends with the exception of the first datagram with the
    identifier that does not parse; what comes after is not looked at. *)
Lemma discover_loop_first_failure before data addr after e :
  (forall d a, Datagram d a ∈ before -> startswith BROADCAST_IDENTIFIER d = true ->
     exists t, parse (fst a) d = Ok t) ->
  startswith BROADCAST_IDENTIFIER data = true ->
  parse (fst addr) data = Raise e ->
  forall found0,
    snd (for_each (before ++ Datagram data addr :: after) body found0) = Raise e.
Proof.
  intros Hbefore Hp Ht.
  induction before as [|r before IH]; intros found0.
  - cbn [app for_each on_recv]. unfold bind at 1.
    rewrite (on_datagram_malformed _ _ e) by assumption. reflexivity.
  - cbn [app for_each]. unfold bind at 1.
    destruct (on_recv_returns r found0) as [found1 ->].
    { intros d a -> Hd. apply Hbefore; [left | exact Hd]. }
    apply IH. intros d a Hin. apply Hbefore. right. exact Hin.
Qed.

(** When the loop returns, every datagram with the identifier parsed. *)
Lemma discover_loop_all_parse received : forall found0 found,
  for_each received body found0 = (found, Ok tt) ->
  forall data addr, Datagram data addr ∈ received ->
    startswith BROADCAST_IDENTIFIER data = true ->
    exists t, parse (fst addr) data = Ok t.
Proof.
  induction received as [|r received IH]; intros found0 found Hrun data addr Hin Hp.
  { inversion Hin. }
  cbn [for_each] in Hrun. unfold bind at 1 in Hrun.
  destruct (body r found0) as [found1 [[]| |]] eqn:Hb; try discriminate.
  apply elem_of_cons in Hin as [<-|Hin]; [|exact (IH _ _ Hrun _ _ Hin Hp)].
  cbn [on_recv] in Hb.
  destruct (parse (fst addr) data) as [t|e|] eqn:Ht; [eauto| |].
  - rewrite (on_datagram_malformed _ _ e) in Hb by assumption. discriminate.
  - unfold on_datagram in Hb. rewrite Hp in Hb. cbn [negb] in Hb.
    unfold bind, lift_res in Hb. rewrite Ht in Hb. discriminate.
Qed.

End DiscoverFacts.

(** C8 (as amended): [discover] returns the tuples parsed from the
    datagrams that start with the identifier, each distinct tuple once
    however often it was received, and ignores the datagrams that do not
    start with the identifier. A datagram that starts with the identifier
    and does not parse (too few fields, a host name that is not base64, a
    port that is not a number) is not ignored: the first such datagram
    ends [discover] with its exception, whatever was found before and
    whatever follows; so [discover] returns only when every datagram that
    starts with the identifier parsed, and its tuple is then among those
    returned. *)
Theorem discover_accumulates (b64decode : bytes -> res bytes) (py_int : bytes -> res Z)
    (received : list recv_result) :
  match discover b64decode py_int received with
  | Ok found =>
      NoDup found /\
      forall t, t ∈ found <->
        exists data addr, Datagram data addr ∈ received /\
          startswith BROADCAST_IDENTIFIER data = true /\
          advert_of b64decode py_int (fst addr) data = Ok t
  | Raise e =>
      exists data addr, Datagram data addr ∈ received /\
        startswith BROADCAST_IDENTIFIER data = true /\
        advert_of b64decode py_int (fst addr) data = Raise e
  | OutOfFuel =>
      exists data addr, Datagram data addr ∈ received /\
        startswith BROADCAST_IDENTIFIER data = true /\
        advert_of b64decode py_int (fst addr) data = OutOfFuel
  end /\
  (forall before data addr after e,
      received = before ++ Datagram data addr :: after ->
      (forall d a, Datagram d a ∈ before ->
         startswith BROADCAST_IDENTIFIER d = true ->
         exists t, advert_of b64decode py_int (fst a) d = Ok t) ->
      startswith BROADCAST_IDENTIFIER data = true ->
      advert_of b64decode py_int (fst addr) data = Raise e ->
      discover b64decode py_int received = Raise e) /\
  (forall found data addr,
      discover b64decode py_int received = Ok found ->
      Datagram data addr ∈ received ->
      startswith BROADCAST_IDENTIFIER data = true ->
      exists t, advert_of b64decode py_int (fst addr) data = Ok t /\ t ∈ found).
Proof.
  pose proof (discover_loop_spec b64decode py_int received [] (NoDup_nil_2)) as H.
  split; [|split].
  - unfold discover.
    destruct (for_each received (on_recv b64decode py_int) []) as [found [[]| |]];
      [|exact H..].
    destruct H as [Hnd H]. split; [exact Hnd|].
    intros t. rewrite H. split; [|auto].
    intros [Hin|Hex]; [inversion Hin | exact Hex].
  - intros before data addr after e -> Hbefore Hp Ht.
    pose proof (discover_loop_first_failure b64decode py_int before data addr after e
                  Hbefore Hp Ht []) as Hf.
    unfold discover.
    destruct (for_each _ (on_recv b64decode py_int) []) as [found [[]| |]];
      cbn [snd] in Hf; congruence.
  - intros found data addr Hd Hin Hp. unfold discover in Hd.
    destruct (for_each received (on_recv b64decode py_int) []) as [found' [[]| |]] eqn:Hrun;
      try discriminate.
    injection Hd as ->. destruct H as [_ H].
    destruct (discover_loop_all_parse b64decode py_int received [] found Hrun data addr
                Hin Hp) as [t Ht].
    exists t. split; [exact Ht|]. apply H. right. exists data, addr. auto.
Qed.

(** The advertisement of the host ["host"] received three times in the
    search time, among other traffic: one tuple. *)
Example discover_three_broadcasts :
  discover b64decode_strict int_decimal
    [Datagram (b "HIDrem0:1|aG9zdA==|192.0.2.5|5026") (b "192.0.2.5", 40000);
     Timeout;
     Datagram (b "HIDrem0:1|aG9zdA==|192.0.2.5|5026") (b "192.0.2.5", 40000);
     Datagram (b "something else") (b "192.0.2.9", 40000);
     Datagram (b "HIDrem0:1|aG9zdA==|192.0.2.5|5026") (b "192.0.2.5", 40000)]
  = Ok [[FStr (b "host"); FStr (b "192.0.2.5"); FInt 5026]].
Proof. vm_compute. reflexivity. Qed.

(** C8, as stated, fails: a datagram that starts with the identifier and
    lacks the port is not ignored; [tdata[2]] raises [IndexError] out of
    [discover]. *)
Lemma malformed_advertisement_raises :
  discover b64decode_strict int_decimal
    [Datagram (b "HIDrem0:1|aG9zdA==|192.0.2.5") (b "192.0.2.5", 40000)]
  = Raise IndexError.
Proof. vm_compute. reflexivity. Qed.



(** * Further properties *)

(** ** The receiver on a stream of frames *)

(** A whole frame at the head of a chunk, on a reset receiver. *)
Lemma feed_frame_then msg frame rest log :
  encode msg = Ok frame ->
  feed record_message (frame ++ rest) (reset_receive, log)
  = feed record_message rest
      (reset_receive, match msg with [] => log | _ => log ++ [msg] end).
Proof.
  intros He. rewrite <- feed_app by apply reset_receive_ok.
  unfold bind. rewrite (feed_frame msg frame log He). reflexivity.
Qed.

Lemma feed_frames msgs : forall frames log,
  Forall2 (fun m f => encode m = Ok f) msgs frames ->
  feed record_message (concat frames) (reset_receive, log)
  = ((reset_receive,
      log ++ List.filter (fun m => match m with [] => false | _ => true end) msgs),
     Ok tt).
Proof.
  induction msgs as [|m msgs IH]; intros frames log HF.
  - apply Forall2_nil_inv_l in HF as ->. cbn. rewrite app_nil_r. reflexivity.
  - apply Forall2_cons_inv_l in HF as (f & frames' & He & HF & ->).
    cbn [concat]. rewrite (feed_frame_then m f _ log He).
    rewrite (IH frames' _ HF). destruct m; cbn [List.filter]; [reflexivity|].
    rewrite <- app_assoc. reflexivity.
Qed.

(** X1: the frames of any number of messages, fed in any chunking, are
    delivered to [got_message] one call per non-empty message, in the
    order the frames were sent. *)
Theorem frames_in_order (msgs frames chunks : list bytes) :
  Forall2 (fun m f => encode m = Ok f) msgs frames ->
  concat chunks = concat frames ->
  feed_all chunks (reset_receive, [])
  = ((reset_receive,
      List.filter (fun m => match m with [] => false | _ => true end) msgs), Ok tt).
Proof.
  intros HF Hc. rewrite feed_all_concat by apply reset_receive_ok.
  rewrite Hc. apply (feed_frames msgs frames [] HF).
Qed.

Lemma frames_in_order_witness :
  feed_all [[x00; x00; x00]; [x01; "a"%byte; x00; x00; x00; x00; x00; x00];
            [x00; x02; "b"%byte]; b "c"] (reset_receive, [])
  = ((reset_receive, [b "a"; b "bc"]), Ok tt).
Proof.
  apply (frames_in_order [b "a"; []; b "bc"]
           [[x00; x00; x00; x01; "a"%byte]; [x00; x00; x00; x00];
            [x00; x00; x00; x02; "b"%byte; "c"%byte]]).
  - repeat constructor.
  - reflexivity.
Defined.

(** [feed] never adds an empty message to the calls of [got_message]. *)
Lemma feed_log_nonempty (k : nat) : forall data r log,
  (length data <= k)%nat -> receiver_ok r ->
  Forall (fun m : bytes => m <> []) log ->
  Forall (fun m : bytes => m <> []) (snd (fst (feed record_message data (r, log)))).
Proof.
  induction k as [|k IH]; intros data r log Hk Hr Hlog.
  - destruct data; [|cbn in Hk; lia]. exact Hlog.
  - destruct (Z.ltb_spec 0 (len data)) as [H0|H0].
    2:{ destruct data; [|unfold len in H0; cbn in H0; lia]. exact Hlog. }
    destruct (Z.ltb_spec (len data) (_to_recv r)) as [Hlt|Hge].
    + rewrite feed_partial by lia. exact Hlog.
    + rewrite feed_full by assumption.
      pose proof (field_done_feed_ok data r log Hr Hge) as Hok.
      assert (Hlog' : Forall (fun m : bytes => m <> [])
                (snd (field_done (_recv_state r)
                        (_buffer r ++ firstn (Z.to_nat (_to_recv r)) data) log))).
      { unfold field_done. destruct (bool_decide (_recv_state r = RSTATE_PREFIX)).
        - destruct (unpack_I _); exact Hlog.
        - cbn [snd]. apply Forall_app. split; [exact Hlog|].
          constructor; [|constructor]. intros Hnil.
          apply (f_equal (@length byte)) in Hnil.
          rewrite length_app, length_firstn in Hnil. cbn in Hnil.
          destruct Hr as [Hr _]. unfold len in Hge. lia. }
      destruct (field_done _ _ log) as [r1 log1]. cbn [fst snd] in *.
      apply IH; [|exact Hok|exact Hlog'].
      destruct Hr as [Hr _].
      pose proof (skipn_shorter (_to_recv r) data Hr Hge). lia.
Qed.

(** X2: whatever bytes are fed to a fresh receiver, in whatever
    chunks, no call of [got_message] carries an empty message. *)
Theorem never_delivers_empty (chunks : list bytes) :
  Forall (fun m : bytes => m <> [])
    (snd (fst (feed_all chunks (reset_receive, [])))).
Proof.
  rewrite feed_all_concat by apply reset_receive_ok.
  apply (feed_log_nonempty (length (concat chunks)));
    [lia | apply reset_receive_ok | constructor].
Qed.

(** X3: the loop of [feed] ends, whatever state the receiver is in (also
    with no byte missing, a negative count or an unknown state) and
    whatever the data, as long as the handler's [got_message] returns or
    raises: [length data + 1] iterations are enough. *)
Theorem feed_terminates {St : Type} (gm : bytes -> M St unit) (data : bytes)
    (r : Receiver) (st : St) :
  (forall msg st', snd (gm msg st') <> OutOfFuel) ->
  snd (feed gm data (r, st)) <> OutOfFuel.
Proof. intros Hgm. apply feed_loop_total; [exact Hgm | right; lia]. Qed.

Lemma feed_terminates_witness :
  snd (feed record_message (b "abcdef") (mkReceiver "other" [] 0, [])) <> OutOfFuel.
Proof.
  apply (feed_terminates record_message (b "abcdef") (mkReceiver "other" [] 0) []).
  intros msg st. discriminate.
Defined.

(** ** The running flag *)

Section Flag.
Variable cls : Type.
Variable gm : cls -> bytes -> script.

(** Any property of the manager that only reads [_running]. *)
Variable I : World cls -> Prop.
Hypothesis I_flag : forall w w', _running w' = _running w -> I w -> I w'.

Local Ltac same_flag :=
  let w := fresh "w" in let Hw := fresh "Hw" in
  intros w Hw; cbv beta;
  repeat match goal with
         | |- context [match ?d w !! ?k with _ => _ end] => destruct (d w !! k)
         end;
  first [ exact Hw | apply (I_flag w); [reflexivity | exact Hw] ].

Lemma flag_emit e : preserves I (@emit cls e).
Proof. same_flag. Qed.

Lemma flag_getitem {V} (d : World cls -> gmap nat V) k : preserves I (getitem d k).
Proof. unfold getitem. same_flag. Qed.

Lemma flag_del_s2r k : preserves I (@delitem cls _ s2r with_s2r k).
Proof. unfold delitem. same_flag. Qed.

Lemma flag_del_s2w k : preserves I (@delitem cls _ s2w with_s2w k).
Proof. unfold delitem. same_flag. Qed.

Lemma flag_del_listen k : preserves I (@delitem cls _ listen_s with_listen_s k).
Proof. unfold delitem. same_flag. Qed.

Lemma flag_set_s2r k v : preserves I (@setitem cls _ s2r with_s2r k v).
Proof. same_flag. Qed.

Lemma flag_set_s2w k v : preserves I (@setitem cls _ s2w with_s2w k v).
Proof. same_flag. Qed.

Lemma flag_new_socket : preserves I (@new_socket cls).
Proof. same_flag. Qed.

Lemma flag_get : preserves I (@get (World cls)).
Proof. intros w Hw. exact Hw. Qed.

Local Ltac walk :=
  repeat first
    [ apply preserves_bind; [|intros ?]
    | apply preserves_if
    | apply preserves_try_pass
    | apply flag_emit | apply flag_getitem | apply flag_get
    | apply flag_del_s2r | apply flag_del_s2w | apply flag_del_listen
    | apply flag_set_s2r | apply flag_set_s2w | apply flag_new_socket
    | apply triple_lift_res | apply triple_raise
    | apply triple_ret; solve [auto]
    | solve [same_flag] ].

Lemma flag_new_proto c k : preserves I (@new_proto cls c k).
Proof. unfold new_proto. walk. Qed.

Lemma flag_send_message target message : preserves I (@send_message cls target message).
Proof. unfold send_message. walk. Qed.

Lemma flag_close protocol : preserves I (@close cls protocol).
Proof.
  unfold close. apply preserves_bind; [apply flag_get|]. intros w0.
  destruct (socket_of protocol w0); walk.
Qed.

Lemma flag_run_action q a : preserves I (@run_action cls q a).
Proof.
  destruct a; cbn [run_action]; [unfold proto_send_message; walk;
    apply flag_send_message | apply flag_close | apply flag_emit ..].
Qed.

Lemma flag_got_message q msg : preserves I (got_message gm q msg).
Proof.
  unfold got_message. walk.
  - apply preserves_for_each, flag_run_action.
  - destruct (snd _); walk.
Qed.

Lemma flag_proto_feed q data : preserves I (proto_feed gm q data).
Proof.
  apply preserves_proto_feed; [apply flag_got_message|].
  intros r w Hw. apply (I_flag w); [reflexivity | exact Hw].
Qed.

Lemma flag_handle_error ls x : preserves I (@handle_error cls ls x).
Proof. unfold handle_error. walk. Qed.

Lemma flag_handle_readable os ls x : preserves I (handle_readable gm os ls x).
Proof. unfold handle_readable. walk. apply flag_proto_feed. Qed.

Lemma flag_handle_writable os x : preserves I (@handle_writable cls os x).
Proof.
  unfold handle_writable. apply preserves_bind; [apply flag_getitem|]. intros buff.
  apply preserves_if; [walk|].
  apply preserves_bind; [destruct (max_write <=? len buff); walk|]. intros tosend. walk.
Qed.

Lemma flag_iteration os sel : preserves I (iteration gm os sel).
Proof.
  unfold iteration. apply preserves_bind; [apply flag_get|]. intros w0.
  apply preserves_if; [walk|].
  destruct sel as [tr tw he| |]; walk.
  - apply preserves_for_each, flag_handle_error.
  - apply preserves_for_each, flag_handle_readable.
  - apply preserves_for_each, flag_handle_writable.
Qed.

Lemma flag_run_loop passes : preserves I (run_loop gm passes).
Proof.
  induction passes as [|[os sel] passes IH]; cbn [run_loop].
  { apply preserves_bind; [apply flag_get|]. intros w0.
    apply preserves_if; [|walk]. intros w1 Hw1. exact Hw1. }
  apply preserves_bind; [apply flag_get|]. intros w0.
  apply preserves_if; [|walk].
  apply preserves_bind; [apply flag_iteration|]. intros ?. exact IH.
Qed.

End Flag.

(** While the flag is set, the loop is not left by a normal return. *)
Lemma run_loop_not_left (cls : Type) (gm : cls -> bytes -> script)
    (passes : list (OS * select_result)) (w : World cls) :
  _running w = true -> snd (run_loop gm passes w) <> Ok tt.
Proof.
  revert w. induction passes as [|[os sel] passes IH]; intros w Hw; cbn [run_loop];
    unfold bind at 1; unfold get; rewrite Hw.
  { discriminate. }
  unfold bind.
  pose proof (flag_iteration cls gm (fun w0 => _running w0 = true)
                (fun _ _ He Ht => eq_trans He Ht) os sel w Hw) as H.
  destruct (iteration gm os sel w) as [w1 [[]| |]]; cbn [fst snd] in *;
    [apply IH; exact H | discriminate..].
Qed.

(** X4: no pass of the loop clears [_running], and nothing is done when an
    exception leaves [run]. So [run], started on a stopped manager, does
    not return normally in passes during which [stop] is not called; and
    when it ends with an exception the flag is still set: a further [run]
    raises [RuntimeError] and changes nothing, [stop] then clears the flag,
    and a second [stop] raises [RuntimeError]. (A [run] that returns
    normally does so because [stop] cleared the flag, which is then
    unset.) *)
Theorem running_flag_stays_set (cls : Type) (gm : cls -> bytes -> script)
    (passes passes' : list (OS * select_result)) (w : World cls) (e : exn) :
  _running w = false ->
  snd (run gm passes w) = Raise e ->
  (forall passes0, snd (run gm passes0 w) <> Ok tt) /\
  _running (fst (run gm passes w)) = true /\
  run gm passes' (fst (run gm passes w))
  = (fst (run gm passes w), Raise (RuntimeError "Already Running!")) /\
  snd (stop (fst (run gm passes w))) = Ok tt /\
  _running (fst (stop (fst (run gm passes w)))) = false /\
  stop (fst (stop (fst (run gm passes w))))
  = (fst (stop (fst (run gm passes w))), Raise (RuntimeError "Not running!")).
Proof.
  intros Hw _.
  split.
  { intros passes0. unfold run, bind, get. rewrite Hw. cbn [modify].
    apply run_loop_not_left. reflexivity. }
  assert (H1 : _running (fst (run gm passes w)) = true).
  { unfold run, bind, get. rewrite Hw. cbn [modify].
    pose proof (flag_run_loop cls gm (fun w0 => _running w0 = true)
                  (fun _ _ He Ht => eq_trans He Ht) passes
                  (with_running true w) eq_refl) as H.
    destruct (run_loop gm passes (with_running true w)) as [w1 [[]| |]]; exact H. }
  split; [exact H1|].
  set (w1 := fst (run gm passes w)) in *.
  split; [unfold run, bind, get; rewrite H1; reflexivity|].
  unfold stop, bind, get. rewrite H1. cbn. repeat split; reflexivity.
Qed.

Lemma running_flag_stays_set_witness :
  snd (run base_got_message
         [(os_reset 1%nat (b "x"), Selected [1%nat; 2%nat] [] [])]
         (with_running false two_connections)) = Raise SocketError /\
  _running (fst (run base_got_message
                   [(os_reset 1%nat (b "x"), Selected [1%nat; 2%nat] [] [])]
                   (with_running false two_connections))) = true.
Proof.
  split; [vm_compute; reflexivity|].
  apply (running_flag_stays_set unit base_got_message
           [(os_reset 1%nat (b "x"), Selected [1%nat; 2%nat] [] [])] []
           (with_running false two_connections) SocketError).
  - reflexivity.
  - vm_compute. reflexivity.
Defined.

(** ** Closing a connection *)

Section Closing.
Variable cls : Type.
Variable gm : cls -> bytes -> script.
Implicit Types (w : World cls).

Lemma socket_of_none protocol w :
  (forall s', s2r w !! s' <> Some protocol) -> socket_of protocol w = None.
Proof.
  intros Hno. unfold socket_of.
  destruct (List.find _ _) as [[k v]|] eqn:Hf; [|reflexivity].
  apply List.find_some in Hf as [Hin Hd]. cbn in Hd.
  apply bool_decide_eq_true_1 in Hd as ->.
  apply list_elem_of_In, elem_of_map_to_list in Hin. destruct (Hno _ Hin).
Qed.

(** The world [close] leaves for a registered protocol. *)
Lemma close_world protocol w s :
  socket_of protocol w = Some s -> is_Some (s2w w !! s) ->
  close protocol w
  = (with_s2w (delete s (s2w w))
       (with_s2r (delete s (s2r w))
          (with_trace ((trace w ++ [EvOnClose protocol false]) ++ [EvSockClose s]) w)),
     Ok tt).
Proof.
  intros Hs [buff Hb]. pose proof (socket_of_registered _ _ _ _ Hs) as Hr.
  unfold close, bind, get. rewrite Hs.
  unfold emit, try_pass, delitem, modify. cbn. rewrite Hr. cbn. rewrite Hb. reflexivity.
Qed.

Lemma unregistered_after_close protocol w s :
  (forall s', s2r w !! s' = Some protocol -> s' = s) ->
  forall s', delete s (s2r w) !! s' <> Some protocol.
Proof.
  intros Hu s' H. destruct (decide (s' = s)) as [->|Hne].
  - rewrite lookup_delete_eq in H. discriminate.
  - rewrite lookup_delete_ne in H by auto. apply Hu in H. contradiction.
Qed.

End Closing.

(** X5: [close] of a protocol that is not registered raises [ValueError]
    and changes nothing; so does a second [close] of a protocol that was
    registered for one socket: the first call returns, the second raises,
    and [on_close(False)] was told once. *)
Theorem close_twice_raises (cls : Type) (w : World cls) (p : nat) (s : socket) :
  socket_of p w = Some s -> is_Some (s2w w !! s) ->
  (forall s', s2r w !! s' = Some p -> s' = s) ->
  snd (close p w) = Ok tt /\
  trace (fst (close p w)) = trace w ++ [EvOnClose p false; EvSockClose s] /\
  close p (fst (close p w))
  = (fst (close p w), Raise (ValueError "No such protocol connected!")) /\
  (forall q, (forall s', s2r w !! s' <> Some q) ->
             close q w = (w, Raise (ValueError "No such protocol connected!"))).
Proof.
  intros Hs Hb Hu. rewrite (close_world cls p w s Hs Hb). cbn [fst snd].
  split; [reflexivity|]. split; [cbn; rewrite <- app_assoc; reflexivity|]. split.
  - unfold close at 1. unfold bind, get.
    rewrite socket_of_none; [reflexivity|].
    cbn. apply unregistered_after_close. exact Hu.
  - intros q Hq. unfold close, bind, get. rewrite (socket_of_none cls q w Hq). reflexivity.
Qed.

Lemma close_twice_raises_witness :
  close 1%nat (fst (close 1%nat two_connections))
  = (fst (close 1%nat two_connections),
     Raise (ValueError "No such protocol connected!")).
Proof.
  refine (proj1 (proj2 (proj2 (close_twice_raises unit two_connections 1%nat 1%nat _ _ _)))).
  - vm_compute. reflexivity.
  - exists []. vm_compute. reflexivity.
  - intros s' H.
    destruct (decide (s' = 1%nat)) as [->|H1]; [reflexivity|].
    destruct (decide (s' = 2%nat)) as [->|H2]; [vm_compute in H; discriminate|].
    exfalso. revert H. unfold two_connections, connect, bind, new_socket, emit,
      lift_res, new_proto, setitem, modify, ret. cbn.
    rewrite !lookup_insert_ne by auto. rewrite lookup_empty. discriminate.
Defined.

(** X6: [send_message] of a protocol after its [close] raises [KeyError]
    and queues nothing. *)
Theorem send_after_close_raises (cls : Type) (w : World cls) (p : nat) (s : socket)
    (o : Proto cls) (msg : bytes) :
  socket_of p w = Some s -> is_Some (s2w w !! s) ->
  heap w !! p = Some o -> _peer o = s -> len msg < 2 ^ 32 ->
  proto_send_message p msg (fst (close p w)) = (fst (close p w), Raise KeyError).
Proof.
  intros Hs Hb Ho Hpeer Hlen. subst s. rewrite (close_world cls p w _ Hs Hb). cbn [fst].
  destruct (encode_returns msg Hlen) as [prefix He].
  unfold proto_send_message, bind, getitem, lift_res, send_message. cbn.
  rewrite Ho. cbn. rewrite He. cbn. unfold bind, getitem. cbn.
  rewrite lookup_delete_eq. reflexivity.
Qed.

Lemma send_after_close_raises_witness :
  proto_send_message 1%nat (b "late") (fst (close 1%nat two_connections))
  = (fst (close 1%nat two_connections), Raise KeyError).
Proof.
  apply (send_after_close_raises unit two_connections 1%nat 1%nat
           (mkProto tt 1%nat reset_receive) (b "late")).
  - vm_compute. reflexivity.
  - exists []. vm_compute. reflexivity.
  - vm_compute. reflexivity.
  - reflexivity.
  - vm_compute. reflexivity.
Defined.

(** X7: an empty read on a connection (the peer closed it) tells its
    protocol [on_close(False)] once, takes the socket out of both
    registries and closes it; the listeners, the protocol objects and the
    entries of every other socket stay as they were. *)
Theorem peer_close_deregisters (cls : Type) (gm : cls -> bytes -> script) (os : OS)
    (ls : list socket) (w : World cls) (s : socket) (p : nat) :
  s ∉ ls -> s2r w !! s = Some p -> is_Some (s2w w !! s) ->
  os_recv os s max_read = Ok [] ->
  snd (handle_readable gm os ls s w) = Ok tt /\
  trace (fst (handle_readable gm os ls s w))
  = trace w ++ [EvRecv s; EvOnClose p false; EvSockClose s] /\
  s2r (fst (handle_readable gm os ls s w)) = delete s (s2r w) /\
  s2w (fst (handle_readable gm os ls s w)) = delete s (s2w w) /\
  listen_s (fst (handle_readable gm os ls s w)) = listen_s w /\
  heap (fst (handle_readable gm os ls s w)) = heap w.
Proof.
  intros Hls Hs [buff Hb] Hrecv. unfold handle_readable.
  rewrite bool_decide_eq_false_2 by exact Hls.
  unfold bind, getitem, emit, lift_res, delitem, try_pass, modify. cbn.
  repeat (first [rewrite Hs | rewrite Hb | rewrite Hrecv];
          try change (0 <? len (@nil byte)) with false;
          cbn; unfold bind, getitem, emit, lift_res, delitem, try_pass, modify; cbn).
  rewrite <- !app_assoc. auto 10.
Qed.

Lemma peer_close_deregisters_witness :
  s2r (fst (handle_readable base_got_message (os_fine 5026 []) [] 1%nat two_connections))
  = delete 1%nat (s2r two_connections).
Proof.
  refine (proj1 (proj2 (proj2 (peer_close_deregisters unit base_got_message
            (os_fine 5026 []) [] two_connections 1%nat 1%nat _ _ _ _)))).
  - apply not_elem_of_nil.
  - vm_compute. reflexivity.
  - exists []. vm_compute. reflexivity.
  - reflexivity.
Defined.

(** ** Sending *)

Lemma send_all {cls} (s : socket) (msgs : list bytes) : forall (w : World cls) q,
  s2w w !! s = Some q ->
  snd (for_each msgs (send_message s) w) = Ok tt /\
  s2w (fst (for_each msgs (send_message s) w)) = <[s := q ++ concat msgs]> (s2w w) /\
  s2r (fst (for_each msgs (send_message s) w)) = s2r w /\
  trace (fst (for_each msgs (send_message s) w)) = trace w.
Proof.
  induction msgs as [|m msgs IH]; intros w q Hq.
  - cbn. rewrite app_nil_r, insert_id by exact Hq. auto.
  - cbn [for_each concat]. unfold bind.
    assert (Hstep : send_message s m w
                    = (with_s2w (<[s := q ++ m]> (s2w w)) w, Ok tt)).
    { unfold send_message, bind, getitem, setitem, modify. cbv beta. rewrite Hq.
      reflexivity. }
    rewrite Hstep.
    destruct (IH (with_s2w (<[s := q ++ m]> (s2w w)) w) (q ++ m)) as (H1 & H2 & H3 & H4).
    { cbn. apply lookup_insert_eq. }
    rewrite H1, H2, H3, H4. cbn. rewrite insert_insert_eq, <- app_assoc. auto.
Qed.

(** X8: the messages queued by successive calls of [send_message] on one
    connection reach [send] in the order queued, after what was queued
    before, in one piece, and the queue is empty afterwards. *)
Theorem sends_in_order_queued (cls : Type) (os : OS) (w : World cls) (s : socket)
    (q : bytes) (msgs : list bytes) :
  s2w w !! s = Some q -> 0 < len (q ++ concat msgs) ->
  trace (fst ((for_each msgs (send_message s) ;;; handle_writable os s) w))
  = trace w ++ [EvSend s (q ++ concat msgs)] /\
  s2w (fst ((for_each msgs (send_message s) ;;; handle_writable os s) w)) !! s = Some [].
Proof.
  intros Hq Hlen. unfold bind.
  destruct (send_all s msgs w q Hq) as (H1 & H2 & _ & H4).
  destruct (for_each msgs (send_message s) w) as [w1 r1]. cbn [fst snd] in *. subst r1.
  assert (Hq1 : s2w w1 !! s = Some (q ++ concat msgs)).
  { rewrite H2. apply lookup_insert_eq. }
  destruct (handle_writable_sends_all os s w1 _ Hq1 Hlen) as [Ht Hs].
  rewrite Ht, Hs, H4. split; [reflexivity | apply lookup_insert_eq].
Qed.

Lemma sends_in_order_queued_witness :
  trace (fst ((for_each [b "one"; b "two"] (send_message 1%nat) ;;;
               handle_writable (os_fine 5026 []) 1%nat) two_connections))
  = trace two_connections ++ [EvSend 1%nat ([] ++ concat [b "one"; b "two"])].
Proof.
  refine (proj1 (sends_in_order_queued unit (os_fine 5026 []) two_connections 1%nat []
                   [b "one"; b "two"] _ _)).
  - vm_compute. reflexivity.
  - vm_compute. reflexivity.
Defined.

(** ** A whole frame read by the manager *)

(** One whole frame of a non-empty message fed to a reset receiver: one
    call of the handler, whose outcome is the outcome of [feed]. *)
Lemma feed_frame_any {St} (gm : bytes -> M St unit) msg frame (st : St) :
  encode msg = Ok frame -> msg <> [] ->
  feed gm frame (reset_receive, st)
  = (let (st', x) := gm msg st in ((reset_receive, st'), x)).
Proof.
  intros He Hne. apply encode_inv in He as (prefix & Hp & ->).
  pose proof (pack_length _ _ Hp) as Hl.
  pose proof (unpack_pack _ _ Hp) as Hu.
  assert (Hpos : 0 < len msg).
  { destruct msg; [congruence | unfold len; cbn; lia]. }
  unfold feed. rewrite feed_loop_unfold.
  assert (Hlen : len (prefix ++ msg) = 4 + len msg).
  { unfold len. rewrite length_app, Hl. lia. }
  rewrite Hlen.
  destruct (Z.ltb_spec 0 (4 + len msg)); [|lia]. cbv zeta.
  cbn [_to_recv _buffer _recv_state reset_receive].
  unfold PREFIX_LENGTH.
  destruct (Z.ltb_spec (4 + len msg) 4); [lia|].
  rewrite Z.min_l by lia.
  rewrite slice_to_nonneg, slice_from_nonneg by lia.
  change (Z.to_nat 4) with 4%nat.
  rewrite firstn_app, skipn_app, Hl, Nat.sub_diag.
  rewrite firstn_all2, skipn_all2 by lia. cbn [firstn skipn app]. rewrite app_nil_r.
  rewrite bool_decide_eq_true_2 by reflexivity. rewrite Hu.
  destruct (Z.ltb_spec 0 (len msg)); [|lia].
  rewrite length_app, Hl. cbn [Nat.add]. change (skipn 0 msg) with msg.
  rewrite feed_loop_unfold.
  destruct (Z.ltb_spec 0 (len msg)); [|lia]. cbv zeta.
  cbn [_to_recv _buffer _recv_state].
  destruct (Z.ltb_spec (len msg) (len msg)); [lia|].
  rewrite Z.min_id.
  rewrite slice_to_nonneg, slice_from_nonneg by lia.
  replace (Z.to_nat (len msg)) with (length msg) by (unfold len; lia).
  rewrite firstn_all, skipn_all. cbn [app].
  rewrite bool_decide_eq_false_2 by discriminate.
  rewrite bool_decide_eq_true_2 by reflexivity.
  destruct (gm msg st) as [st' [[]| |]]; [apply feed_loop_nil | reflexivity..].
Qed.

Lemma encode_length msg frame : encode msg = Ok frame -> len frame = 4 + len msg.
Proof.
  intros He. apply encode_inv in He as (prefix & Hp & ->).
  apply pack_length in Hp. unfold len. rewrite length_app, Hp. lia.
Qed.

Section Readable.
Variable cls : Type.
Variable gm : cls -> bytes -> script.
Implicit Types (w : World cls).

(** The read branch on a connection whose receiver is reset and whose
    [recv] returns one whole frame. *)
Lemma readable_frame os ls s w p o msg frame :
  s ∉ ls -> s2r w !! s = Some p -> heap w !! p = Some o ->
  p_recv o = reset_receive ->
  os_recv os s max_read = Ok frame -> encode msg = Ok frame -> msg <> [] ->
  handle_readable gm os ls s w
  = (let (w', x) := got_message gm p msg (with_trace (trace w ++ [EvRecv s]) w) in
     (store_recv p reset_receive w', x)).
Proof.
  intros Hls Hs Ho Hr Hrecv He Hne. unfold handle_readable.
  rewrite bool_decide_eq_false_2 by exact Hls.
  unfold bind at 1. unfold getitem at 1. cbv beta. rewrite Hs.
  unfold bind at 1. unfold emit at 1, modify at 1.
  unfold bind at 1. unfold lift_res at 1. rewrite Hrecv.
  pose proof (encode_length _ _ He) as Hlen.
  destruct (Z.ltb_spec 0 (len frame)); [|unfold len in *; lia].
  unfold proto_feed. cbn [heap with_trace]. rewrite Ho, Hr.
  rewrite (feed_frame_any _ msg frame _ He Hne).
  destruct (got_message gm p msg _) as [w' x]. reflexivity.
Qed.

(** [got_message] of an object of the manager: the calls of its class's
    script, then the exception of the script. *)
Lemma got_message_script w p o msg :
  heap w !! p = Some o ->
  got_message gm p msg w
  = (for_each (fst (gm (p_class o) msg)) (run_action p) ;;;
     match snd (gm (p_class o) msg) with
     | Some e => raise e
     | None => ret tt
     end) (with_trace (trace w ++ [EvGotMessage p msg]) w).
Proof.
  intros Ho. unfold got_message.
  unfold bind at 1. unfold emit at 1, modify at 1.
  unfold bind at 1. unfold getitem at 1. cbn [heap with_trace]. rewrite Ho.
  reflexivity.
Qed.

End Readable.

(** ** The server on whole frames *)

Section ServerFrames.
Variables ID_PING ID_KEYBOARD ID_MOUSE ACTION_PRESS ACTION_RELEASE : bytes.

Local Abbreviation gm :=
  (class_got_message ID_PING ID_KEYBOARD ID_MOUSE ACTION_PRESS ACTION_RELEASE).

(** The script of a keyboard message with one of the two actions. *)
Lemma keyboard_script (k a1 a2 : byte) (down : bool) key :
  ID_KEYBOARD = [k] -> ACTION_PRESS = [a1] -> ACTION_RELEASE = [a2] ->
  a1 <> a2 -> ID_PING <> ID_KEYBOARD ->
  server_got_message ID_PING ID_KEYBOARD ID_MOUSE ACTION_PRESS ACTION_RELEASE
    (k :: (if down then a1 else a2) :: key)
  = ([if down then APressKey key else AReleaseKey key], None).
Proof.
  intros Hk H1 H2 Hne Hd. cbn [server_got_message]. cbv zeta.
  rewrite (bool_decide_eq_false_2 ([k] = ID_PING)) by congruence.
  rewrite (bool_decide_eq_true_2 ([k] = ID_KEYBOARD)) by congruence.
  destruct down.
  - rewrite (bool_decide_eq_true_2 ([a1] = ACTION_PRESS)) by congruence. reflexivity.
  - rewrite (bool_decide_eq_false_2 ([a2] = ACTION_PRESS)) by congruence.
    rewrite (bool_decide_eq_true_2 ([a2] = ACTION_RELEASE)) by congruence. reflexivity.
Qed.

End ServerFrames.

(** X9: when the server reads the whole frame of a PING message on a
    connection, it queues on that connection the same frame: the payload is
    echoed byte for byte, after what was queued before; nothing else
    changes in the registries. *)
Theorem server_echoes_ping
    (ID_PING ID_KEYBOARD ID_MOUSE ACTION_PRESS ACTION_RELEASE : bytes)
    (os : OS) (ls : list socket) (w : World protoclass) (s : socket) (p : nat)
    (o : Proto protoclass) (c : byte) (token frame q : bytes) :
  ID_PING = [c] ->
  s ∉ ls -> s2r w !! s = Some p -> s2w w !! s = Some q ->
  heap w !! p = Some o -> p_class o = HIDremServerProtocol -> _peer o = s ->
  p_recv o = reset_receive ->
  os_recv os s max_read = Ok frame -> encode (c :: token) = Ok frame ->
  snd (handle_readable
         (class_got_message ID_PING ID_KEYBOARD ID_MOUSE ACTION_PRESS ACTION_RELEASE)
         os ls s w) = Ok tt /\
  s2w (fst (handle_readable
         (class_got_message ID_PING ID_KEYBOARD ID_MOUSE ACTION_PRESS ACTION_RELEASE)
         os ls s w)) = <[s := q ++ frame]> (s2w w) /\
  s2r (fst (handle_readable
         (class_got_message ID_PING ID_KEYBOARD ID_MOUSE ACTION_PRESS ACTION_RELEASE)
         os ls s w)) = s2r w /\
  trace (fst (handle_readable
         (class_got_message ID_PING ID_KEYBOARD ID_MOUSE ACTION_PRESS ACTION_RELEASE)
         os ls s w)) = trace w ++ [EvRecv s; EvGotMessage p (c :: token)].
Proof.
  intros Hping Hls Hs Hq Ho Hc Hpeer Hr Hrecv He.
  rewrite (readable_frame _ _ os ls s w p o (c :: token) frame)
    by (try assumption; discriminate).
  rewrite (got_message_script _ _ _ p o) by exact Ho.
  rewrite Hc. cbn [class_got_message server_got_message]. cbv zeta.
  rewrite (bool_decide_eq_true_2 ([c] = ID_PING)) by congruence.
  cbn [fst snd for_each run_action app].
  repeat (progress (unfold proto_send_message, send_message, bind, getitem, lift_res,
                      setitem, modify, ret;
                    cbn; rewrite ?Ho, ?He, ?Hpeer, ?Hq)).
  rewrite <- app_assoc. auto.
Qed.

Lemma server_echoes_ping_witness :
  s2w (fst (handle_readable (class_got_message [x00] [x01] [x02] [x00] [x01])
              (os_fine 5026 [x00; x00; x00; x02; x00; "t"%byte]) [1%nat] 2%nat
              server_world))
  = <[2%nat := [] ++ [x00; x00; x00; x02; x00; "t"%byte]]> (s2w server_world).
Proof.
  refine (proj1 (proj2 (server_echoes_ping [x00] [x01] [x02] [x00] [x01]
            (os_fine 5026 [x00; x00; x00; x02; x00; "t"%byte]) [1%nat] server_world
            2%nat 2%nat (mkProto HIDremServerProtocol 2%nat reset_receive)
            x00 (b "t") _ [] _ _ _ _ _ _ _ _ _ _))).
  - reflexivity.
  - intros H. apply list_elem_of_singleton in H. discriminate.
  - vm_compute. reflexivity.
  - vm_compute. reflexivity.
  - vm_compute. reflexivity.
  - reflexivity.
  - reflexivity.
  - reflexivity.
  - reflexivity.
  - reflexivity.
Defined.

(** X10: when the server reads the whole frame of a keyboard message whose
    action is [ACTION_PRESS] (or [ACTION_RELEASE]), it calls [press_key]
    (or [release_key]) with the key once and the other not at all; the
    registries and queues stay as they were. *)
Theorem server_applies_key
    (ID_PING ID_KEYBOARD ID_MOUSE ACTION_PRESS ACTION_RELEASE : bytes)
    (os : OS) (ls : list socket) (w : World protoclass) (s : socket) (p : nat)
    (o : Proto protoclass) (k a1 a2 : byte) (down : bool) (key frame : bytes) :
  ID_KEYBOARD = [k] -> ACTION_PRESS = [a1] -> ACTION_RELEASE = [a2] ->
  a1 <> a2 -> ID_PING <> ID_KEYBOARD ->
  s ∉ ls -> s2r w !! s = Some p ->
  heap w !! p = Some o -> p_class o = HIDremServerProtocol ->
  p_recv o = reset_receive ->
  os_recv os s max_read = Ok frame ->
  encode (k :: (if down then a1 else a2) :: key) = Ok frame ->
  snd (handle_readable
         (class_got_message ID_PING ID_KEYBOARD ID_MOUSE ACTION_PRESS ACTION_RELEASE)
         os ls s w) = Ok tt /\
  trace (fst (handle_readable
         (class_got_message ID_PING ID_KEYBOARD ID_MOUSE ACTION_PRESS ACTION_RELEASE)
         os ls s w))
  = trace w ++ [EvRecv s; EvGotMessage p (k :: (if down then a1 else a2) :: key);
                if down then EvPressKey p key else EvReleaseKey p key] /\
  s2r (fst (handle_readable
         (class_got_message ID_PING ID_KEYBOARD ID_MOUSE ACTION_PRESS ACTION_RELEASE)
         os ls s w)) = s2r w /\
  s2w (fst (handle_readable
         (class_got_message ID_PING ID_KEYBOARD ID_MOUSE ACTION_PRESS ACTION_RELEASE)
         os ls s w)) = s2w w.
Proof.
  intros Hk H1 H2 Hne Hd Hls Hs Ho Hc Hr Hrecv He.
  rewrite (readable_frame _ _ os ls s w p o (k :: (if down then a1 else a2) :: key) frame)
    by (try assumption; discriminate).
  rewrite (got_message_script _ _ _ p o) by exact Ho.
  rewrite Hc. cbn [class_got_message].
  rewrite (keyboard_script _ _ _ _ _ k a1 a2 down key Hk H1 H2 Hne Hd).
  cbn [fst snd for_each]. unfold bind, ret.
  destruct down; cbn; rewrite <- !app_assoc; auto.
Qed.

Lemma server_applies_key_witness :
  trace (fst (handle_readable (class_got_message [x00] [x01] [x02] [x00] [x01])
                (os_fine 5026 [x00; x00; x00; x03; x01; x00; "a"%byte]) [1%nat] 2%nat
                server_world))
  = trace server_world
    ++ [EvRecv 2%nat; EvGotMessage 2%nat [x01; x00; "a"%byte]; EvPressKey 2%nat (b "a")].
Proof.
  refine (proj1 (proj2 (server_applies_key [x00] [x01] [x02] [x00] [x01]
            (os_fine 5026 [x00; x00; x00; x03; x01; x00; "a"%byte]) [1%nat] server_world
            2%nat 2%nat (mkProto HIDremServerProtocol 2%nat reset_receive)
            x01 x00 x01 true (b "a") _ _ _ _ _ _ _ _ _ _ _ _ _))).
  - reflexivity.
  - reflexivity.
  - reflexivity.
  - discriminate.
  - discriminate.
  - intros H. apply list_elem_of_singleton in H. discriminate.
  - vm_compute. reflexivity.
  - vm_compute. reflexivity.
  - reflexivity.
  - reflexivity.
  - reflexivity.
  - reflexivity.
Defined.

(** X11: a keyboard message of one byte, the kind with no action, makes
    [got_message] raise [IndexError]; nothing catches it, so the pass and
    [run] end with it: five bytes from a peer stop the server's loop. *)
Theorem short_keyboard_message_ends_run
    (ID_PING ID_KEYBOARD ID_MOUSE ACTION_PRESS ACTION_RELEASE : bytes)
    (os : OS) (w : World protoclass) (s : socket) (p : nat) (o : Proto protoclass)
    (k : byte) (tr tw : list socket) (rest : list (OS * select_result)) :
  ID_KEYBOARD = [k] -> ID_PING <> ID_KEYBOARD ->
  listen_s w !! s = None -> s2r w !! s = Some p ->
  heap w !! p = Some o -> p_class o = HIDremServerProtocol ->
  p_recv o = reset_receive ->
  os_recv os s max_read = Ok [x00; x00; x00; x01; k] ->
  _running w = true ->
  snd (iteration
         (class_got_message ID_PING ID_KEYBOARD ID_MOUSE ACTION_PRESS ACTION_RELEASE)
         os (Selected (s :: tr) tw []) w) = Raise IndexError /\
  snd (run_loop
         (class_got_message ID_PING ID_KEYBOARD ID_MOUSE ACTION_PRESS ACTION_RELEASE)
         ((os, Selected (s :: tr) tw []) :: rest) w) = Raise IndexError.
Proof.
  intros Hk Hd Hl Hs Ho Hc Hr Hrecv Hrun.
  set (gm := class_got_message ID_PING ID_KEYBOARD ID_MOUSE ACTION_PRESS ACTION_RELEASE).
  assert (Hls : s ∉ keys (listen_s w)).
  { rewrite elem_of_keys, Hl. intros [? ?]. discriminate. }
  assert (Hread : snd (handle_readable gm os (keys (listen_s w)) s w) = Raise IndexError).
  { rewrite (readable_frame _ gm os _ s w p o [k] [x00; x00; x00; x01; k])
      by (try assumption; try discriminate; reflexivity).
    rewrite (got_message_script _ gm _ p o) by exact Ho.
    subst gm. rewrite Hc. cbn [class_got_message server_got_message]. cbv zeta.
    rewrite (bool_decide_eq_false_2 ([k] = ID_PING)) by congruence.
    rewrite (bool_decide_eq_true_2 ([k] = ID_KEYBOARD)) by congruence.
    reflexivity. }
  assert (Hit : snd (iteration gm os (Selected (s :: tr) tw []) w) = Raise IndexError).
  { unfold iteration, bind, get. cbv zeta.
    destruct (Z.eqb_spec (len (keys (listen_s w) ++ keys (s2r w) ++
        List.filter (fun s0 => match s2w w !! s0 with Some (_ :: _) => true | _ => false end)
          (keys (s2w w)) ++ keys (listen_s w) ++
        List.filter (fun s0 => match s2w w !! s0 with Some (_ :: _) => true | _ => false end)
          (keys (s2w w)) ++ keys (s2r w))) 0) as [H0|_].
    { exfalso. assert (Hin : s ∈ keys (s2r w)) by (apply elem_of_keys; eauto).
      unfold len in H0. rewrite !length_app in H0.
      destruct (keys (s2r w)); [inversion Hin | cbn in H0; lia]. }
    cbn [for_each]. unfold ret, bind.
    destruct (handle_readable gm os (keys (listen_s w)) s w) as [w1 r1].
    cbn [snd] in Hread. subst r1. reflexivity. }
  split; [exact Hit|].
  cbn [run_loop]. unfold bind at 1. unfold get. rewrite Hrun. unfold bind.
  destruct (iteration gm os (Selected (s :: tr) tw []) w) as [w1 r1].
  cbn [snd] in Hit. subst r1. reflexivity.
Qed.

Lemma short_keyboard_message_ends_run_witness :
  snd (run_loop (class_got_message [x00] [x01] [x02] [x00] [x01])
         [(os_fine 5026 [x00; x00; x00; x01; x01], Selected [2%nat] [] []);
          (os_fine 5026 [], Selected [1%nat] [] [])]
         (with_running true server_world)) = Raise IndexError.
Proof.
  refine (proj2 (short_keyboard_message_ends_run [x00] [x01] [x02] [x00] [x01]
            (os_fine 5026 [x00; x00; x00; x01; x01]) (with_running true server_world)
            2%nat 2%nat (mkProto HIDremServerProtocol 2%nat reset_receive) x01
            [] [] [(os_fine 5026 [], Selected [1%nat] [] [])] _ _ _ _ _ _ _ _ _)).
  - reflexivity.
  - discriminate.
  - vm_compute. reflexivity.
  - vm_compute. reflexivity.
  - vm_compute. reflexivity.
  - reflexivity.
  - reflexivity.
  - reflexivity.
  - reflexivity.
Defined.

(** X12: what the client's [press_key(key)] (or [release_key(key)]) queues
    is the frame of kind, action and key; fed to a receiver in any chunks
    it is delivered as that one message, for which the server's
    [got_message] calls [press_key(key)] (or [release_key(key)]) and
    nothing else. *)
Theorem key_message_round_trip
    (ID_PING ID_KEYBOARD ID_MOUSE ACTION_PRESS ACTION_RELEASE : bytes)
    (k a1 a2 : byte) (down : bool) (cls : Type) (wc : World cls) (pc : nat)
    (oc : Proto cls) (q key : bytes) :
  ID_KEYBOARD = [k] -> ACTION_PRESS = [a1] -> ACTION_RELEASE = [a2] ->
  a1 <> a2 -> ID_PING <> ID_KEYBOARD ->
  heap wc !! pc = Some oc -> s2w wc !! _peer oc = Some q ->
  len key + 2 < 2 ^ 32 ->
  exists frame,
    (if down then press_key ID_KEYBOARD ACTION_PRESS pc key wc
     else release_key ID_KEYBOARD ACTION_RELEASE pc key wc)
    = (with_s2w (<[_peer oc := q ++ frame]> (s2w wc)) wc, Ok tt) /\
    (forall chunks, concat chunks = frame ->
       feed_all chunks (reset_receive, [])
       = ((reset_receive, [k :: (if down then a1 else a2) :: key]), Ok tt)) /\
    server_got_message ID_PING ID_KEYBOARD ID_MOUSE ACTION_PRESS ACTION_RELEASE
      (k :: (if down then a1 else a2) :: key)
    = ([if down then APressKey key else AReleaseKey key], None).
Proof.
  intros Hk H1 H2 Hne Hd Ho Hq Hlen.
  set (msg := k :: (if down then a1 else a2) :: key).
  destruct (encode_returns msg) as [prefix He].
  { unfold msg, len in *. cbn [length]. lia. }
  exists (prefix ++ msg). split; [|split].
  - assert (Hsend : proto_send_message pc msg wc
                    = (with_s2w (<[_peer oc := q ++ prefix ++ msg]> (s2w wc)) wc, Ok tt)).
    { unfold proto_send_message, bind, getitem, lift_res. cbv beta. rewrite Ho, He.
      unfold send_message, bind, getitem, setitem, modify. cbv beta. rewrite Hq.
      reflexivity. }
    unfold press_key, release_key. rewrite Hk, H1, H2.
    destruct down; exact Hsend.
  - intros chunks Hc. rewrite feed_all_concat by apply reset_receive_ok.
    rewrite Hc. rewrite (feed_frame msg _ [] He). reflexivity.
  - apply keyboard_script; assumption.
Qed.

Lemma key_message_round_trip_witness :
  exists frame,
    press_key [x01] [x00] 1%nat (b "a") two_connections
    = (with_s2w (<[1%nat := [] ++ frame]> (s2w two_connections)) two_connections, Ok tt) /\
    (forall chunks, concat chunks = frame ->
       feed_all chunks (reset_receive, [])
       = ((reset_receive, [[x01; x00; "a"%byte]]), Ok tt)) /\
    server_got_message [x00] [x01] [x02] [x00] [x01] [x01; x00; "a"%byte]
    = ([APressKey (b "a")], None).
Proof.
  apply (key_message_round_trip [x00] [x01] [x02] [x00] [x01] x01 x00 x01 true unit
           two_connections 1%nat (mkProto tt 1%nat reset_receive) [] (b "a")).
  - reflexivity.
  - reflexivity.
  - reflexivity.
  - discriminate.
  - discriminate.
  - vm_compute. reflexivity.
  - vm_compute. reflexivity.
  - vm_compute. reflexivity.
Defined.

(** ** Discovery of what [broadcast] sends *)

Section BroadcastFacts.
Variable b64decode : bytes -> res bytes.
Variable py_int : bytes -> res Z.
Variable b64encode : bytes -> bytes.
Variable py_str : Z -> bytes.

(** The tuple the loop body of [discover] makes of a broadcast message. *)
Lemma advert_of_broadcast src hostname ip port :
  b64decode (b64encode hostname) = Ok hostname ->
  py_int (py_str port) = Ok port ->
  SEP ∉ b64encode hostname -> SEP ∉ ip -> SEP ∉ py_str port ->
  advert_of b64decode py_int src (broadcast_message b64encode py_str hostname ip port)
  = Ok [FStr hostname; FStr src; FInt port].
Proof.
  intros Hb Hi Hh Hip Hp. unfold advert_of. cbv zeta.
  change (broadcast_message b64encode py_str hostname ip port)
    with (advertisement (b64encode hostname) ip (py_str port)).
  rewrite advertisement_fields by assumption.
  rewrite split_no_sep by exact Hp.
  cbn [fmap list_fmap].
  repeat (progress (unfold rbind, list_getitem, list_setitem, on_str; cbn;
                    rewrite ?Hb, ?Hi;
                    try (rewrite bool_decide_eq_true_2 by (cbn; lia)))).
  reflexivity.
Qed.

Lemma discover_loop_known t msg addr received :
  advert_of b64decode py_int (fst addr) msg = Ok t ->
  startswith BROADCAST_IDENTIFIER msg = true ->
  Forall (fun r => r = Timeout \/ r = Datagram msg addr) received ->
  for_each received (on_recv b64decode py_int) [t] = ([t], Ok tt).
Proof.
  intros Ht Hp. induction 1 as [|r received [-> | ->] _ IH]; [reflexivity| |].
  - cbn [for_each on_recv]. unfold bind, ret. exact IH.
  - cbn [for_each on_recv]. unfold bind.
    rewrite (on_datagram_parsed _ _ _ _ t) by assumption.
    rewrite bool_decide_eq_true_2 by left. exact IH.
Qed.

End BroadcastFacts.

(** X13: what [broadcast] sends comes back from [discover] as one tuple,
    the host name, the address the datagrams came from and the port,
    however many times it was received and whatever time-outs occurred in
    between, provided [b64decode] undoes [b64encode], [int] undoes [str],
    and neither the encoded host name, the ip nor the port text holds the
    delimiter. *)
Theorem broadcast_is_discovered
    (b64decode : bytes -> res bytes) (py_int : bytes -> res Z)
    (b64encode : bytes -> bytes) (py_str : Z -> bytes)
    (hostname ip : bytes) (port : Z) (addr : address) (received : list recv_result) :
  b64decode (b64encode hostname) = Ok hostname ->
  py_int (py_str port) = Ok port ->
  SEP ∉ b64encode hostname -> SEP ∉ ip -> SEP ∉ py_str port ->
  Forall (fun r => r = Timeout \/
                   r = Datagram (broadcast_message b64encode py_str hostname ip port) addr)
    received ->
  Datagram (broadcast_message b64encode py_str hostname ip port) addr ∈ received ->
  discover b64decode py_int received = Ok [[FStr hostname; FStr (fst addr); FInt port]].
Proof.
  intros Hb Hi Hh Hip Hp Hall Hin.
  set (msg := broadcast_message b64encode py_str hostname ip port) in *.
  set (t := [FStr hostname; FStr (fst addr); FInt port]).
  assert (Ht : advert_of b64decode py_int (fst addr) msg = Ok t)
    by (apply advert_of_broadcast; assumption).
  assert (Hs : startswith BROADCAST_IDENTIFIER msg = true) by apply startswith_app.
  unfold discover.
  assert (Hloop : for_each received (on_recv b64decode py_int) [] = ([t], Ok tt)).
  { clear -Hall Hin Ht Hs. induction Hall as [|r received Hr Hall IH].
    - inversion Hin.
    - cbn [for_each]. unfold bind. destruct Hr as [-> | ->].
      + cbn [on_recv]. unfold ret. apply IH.
        apply elem_of_cons in Hin as [Hin|Hin]; [discriminate | exact Hin].
      + cbn [on_recv]. rewrite (on_datagram_parsed _ _ _ _ t) by assumption.
        rewrite bool_decide_eq_false_2 by apply not_elem_of_nil.
        cbn [app]. apply (discover_loop_known _ _ t msg addr); assumption. }
  rewrite Hloop. reflexivity.
Qed.

Lemma broadcast_is_discovered_witness :
  discover b64decode_strict int_decimal
    [Datagram (broadcast_message b64encode_std str_decimal (b "host") (b "192.0.2.5") 5026)
       (b "192.0.2.5", 40000);
     Timeout;
     Datagram (broadcast_message b64encode_std str_decimal (b "host") (b "192.0.2.5") 5026)
       (b "192.0.2.5", 40000)]
  = Ok [[FStr (b "host"); FStr (fst (b "192.0.2.5", 40000)); FInt 5026]].
Proof.
  apply (broadcast_is_discovered b64decode_strict int_decimal b64encode_std str_decimal
           (b "host") (b "192.0.2.5") 5026 (b "192.0.2.5", 40000)).
  - vm_compute. reflexivity.
  - vm_compute. reflexivity.
  - vm_compute. intros H. apply list_elem_of_In in H. cbn in H. intuition discriminate.
  - vm_compute. intros H. apply list_elem_of_In in H. cbn in H. intuition discriminate.
  - vm_compute. intros H. apply list_elem_of_In in H. cbn in H. intuition discriminate.
  - constructor; [right; reflexivity|]. constructor; [left; reflexivity|].
    constructor; [right; reflexivity|]. constructor.
  - left.
Defined.

(** What the loop body of [discover] makes of a datagram has at least
    three elements: two strings and a number first. *)
Lemma advert_of_shape (b64decode : bytes -> res bytes) (py_int : bytes -> res Z)
    ip data t :
  advert_of b64decode py_int ip data = Ok t ->
  exists hostname port rest,
    t = FStr hostname :: FStr ip :: FInt port :: (FStr <$> rest).
Proof.
  intros H. unfold advert_of in H. cbv zeta in H.
  destruct (split SEP _) as [|f0 [|f1 [|f2 rest]]];
    cbn [fmap list_fmap] in H;
    unfold rbind, list_getitem, list_setitem, on_str in H; cbn in H;
    repeat (first [case_bool_decide | case_match]; simplify_eq; cbn in *; try lia);
    simplify_eq; eauto.
Qed.

(** X14: every tuple [discover] returns has at least three elements: the
    decoded host name, the source ip of a datagram received, and the port
    as a number; what follows, if anything, are the further fields of the
    datagram as strings. *)
Theorem discovered_tuple_shape (b64decode : bytes -> res bytes) (py_int : bytes -> res Z)
    (received : list recv_result) (found : list (list field)) :
  discover b64decode py_int received = Ok found ->
  Forall (fun t => exists hostname ip port rest,
            t = FStr hostname :: FStr ip :: FInt port :: (FStr <$> rest)) found.
Proof.
  intros Hd.
  pose proof (discover_loop_spec b64decode py_int received [] (NoDup_nil_2)) as H.
  unfold discover in Hd.
  destruct (for_each received (on_recv b64decode py_int) []) as [found' [[]| |]];
    try discriminate.
  injection Hd as ->. destruct H as [_ H].
  apply Forall_forall. intros t Ht.
  apply H in Ht as [Ht|(data & addr & _ & _ & Hp)]; [inversion Ht|].
  apply advert_of_shape in Hp as (hostname & port & rest & ->). eauto.
Qed.

Lemma discovered_tuple_shape_witness :
  Forall (fun t => exists hostname ip port rest,
            t = FStr hostname :: FStr ip :: FInt port :: (FStr <$> rest))
    [[FStr (b "host"); FStr (b "192.0.2.5"); FInt 5026; FStr (b "more")]].
Proof.
  apply (discovered_tuple_shape b64decode_strict int_decimal
           [Datagram (b "HIDrem0:1|aG9zdA==|10.0.0.1|5026|more") (b "192.0.2.5", 40000)]).
  vm_compute. reflexivity.
Defined.

(** ** Accepting, sending and failing handlers *)

(** X15: a connection accepted on a listener gets a new protocol object of
    the class that was given to [listen], with a reset receiver, after
    [setup] was called on it; it is registered under its own new socket
    with an empty queue, and the listener stays registered. *)
Theorem accepted_connection_gets_listener_class (cls : Type)
    (gm : cls -> bytes -> script) (os os' : OS) (w : World cls)
    (host : bytes) (port bound : Z) (c : cls) :
  os_bind os host port = Ok bound ->
  os_accept os' (next_socket w) = Ok tt ->
  snd (handle_readable gm os' (keys (listen_s (fst (listen os host port c w))))
         (next_socket w) (fst (listen os host port c w))) = Ok tt /\
  heap (fst (handle_readable gm os' (keys (listen_s (fst (listen os host port c w))))
               (next_socket w) (fst (listen os host port c w))))
    !! S (next_socket w)
  = Some (mkProto c (S (next_socket w)) reset_receive) /\
  s2r (fst (handle_readable gm os' (keys (listen_s (fst (listen os host port c w))))
              (next_socket w) (fst (listen os host port c w))))
    !! S (next_socket w) = Some (S (next_socket w)) /\
  s2w (fst (handle_readable gm os' (keys (listen_s (fst (listen os host port c w))))
              (next_socket w) (fst (listen os host port c w))))
    !! S (next_socket w) = Some [] /\
  listen_s (fst (handle_readable gm os' (keys (listen_s (fst (listen os host port c w))))
                   (next_socket w) (fst (listen os host port c w))))
    !! next_socket w = Some c /\
  trace (fst (handle_readable gm os' (keys (listen_s (fst (listen os host port c w))))
                (next_socket w) (fst (listen os host port c w))))
  = trace w ++ [EvBind (next_socket w) host port; EvListen (next_socket w);
                EvAccept (next_socket w) (S (next_socket w)); EvSetup (S (next_socket w))].
Proof.
  intros Hbind Hacc.
  assert (Hl : listen os host port c w
               = (with_listen_s (<[next_socket w := c]> (listen_s w))
                    (with_trace ((trace w ++ [EvBind (next_socket w) host port])
                                 ++ [EvListen (next_socket w)])
                       (with_sockname (<[next_socket w := bound]> (sockname w))
                          (with_trace (trace w ++ [EvBind (next_socket w) host port])
                             (with_next_socket (S (next_socket w)) w)))), Ok bound)).
  { unfold listen, bind, new_socket, emit, lift_res, getitem, setitem, modify, ret.
    cbn. rewrite Hbind. cbn. rewrite lookup_insert_eq. reflexivity. }
  rewrite Hl. cbn [fst]. unfold handle_readable.
  rewrite bool_decide_eq_true_2.
  2:{ apply elem_of_keys. cbn. rewrite lookup_insert_eq. eauto. }
  unfold bind, getitem, new_socket, emit, lift_res, new_proto, setitem, modify, ret.
  cbn. rewrite lookup_insert_eq. rewrite Hacc. cbn.
  rewrite !lookup_insert_eq, <- !app_assoc. auto 10.
Qed.

Lemma accepted_connection_gets_listener_class_witness :
  heap server_world !! 2%nat = Some (mkProto HIDremServerProtocol 2%nat reset_receive).
Proof.
  refine (proj1 (proj2 (accepted_connection_gets_listener_class protoclass
            (class_got_message [x00] [x01] [x02] [x00] [x01])
            (os_fine 5026 []) (os_fine 5026 []) init (b "0.0.0.0") 0 5026
            HIDremServerProtocol _ _))); reflexivity.
Defined.

(** X16: [send_message] of a protocol refuses a payload of [2 ^ 32] bytes
    or more with [struct.error] and queues nothing; a shorter payload adds
    to the queue of its peer, after what is queued, four bytes of prefix
    and then the payload. *)
Theorem send_message_bounds (cls : Type) (w : World cls) (p : nat) (o : Proto cls)
    (q msg : bytes) :
  heap w !! p = Some o -> s2w w !! _peer o = Some q ->
  (2 ^ 32 <= len msg -> proto_send_message p msg w = (w, Raise StructError)) /\
  (len msg < 2 ^ 32 ->
   exists prefix,
     proto_send_message p msg w
     = (with_s2w (<[_peer o := q ++ prefix ++ msg]> (s2w w)) w, Ok tt) /\
     length prefix = 4%nat /\ unpack_I prefix = Ok (len msg)).
Proof.
  intros Ho Hq. split.
  - intros Hbig. unfold proto_send_message, bind, getitem, lift_res. cbv beta.
    rewrite Ho. unfold encode, pack_I.
    destruct (Z.ltb_spec (len msg) (2 ^ 32)); [lia|].
    rewrite andb_false_r. reflexivity.
  - intros Hlen.
    destruct (pack_I (len msg)) as [prefix| |] eqn:Hp.
    + exists prefix. split; [|split; [eapply pack_length; eauto | eapply unpack_pack; eauto]].
      unfold proto_send_message, bind, getitem, lift_res. cbv beta. rewrite Ho.
      unfold encode. rewrite Hp.
      unfold send_message, bind, getitem, setitem, modify. cbv beta. rewrite Hq.
      reflexivity.
    + exfalso. unfold pack_I in Hp.
      destruct (Z.leb_spec 0 (len msg)); [|unfold len in *; lia].
      destruct (Z.ltb_spec (len msg) (2 ^ 32)); [discriminate | lia].
    + exfalso. unfold pack_I in Hp. destruct (_ && _); discriminate.
Qed.

Lemma send_message_bounds_witness :
  exists prefix,
    proto_send_message 1%nat (b "hello") two_connections
    = (with_s2w (<[1%nat := [] ++ prefix ++ b "hello"]> (s2w two_connections))
         two_connections, Ok tt) /\
    length prefix = 4%nat /\ unpack_I prefix = Ok (len (b "hello")).
Proof.
  refine (proj2 (send_message_bounds unit two_connections 1%nat
                   (mkProto tt 1%nat reset_receive) [] (b "hello") _ _) _).
  - vm_compute. reflexivity.
  - vm_compute. reflexivity.
  - vm_compute. reflexivity.
Defined.

(** X17: when the handler's [got_message] raises on a message, [feed]
    raises the same exception at once: the receiver is left reset, and
    what followed the frame in the same chunk is dropped, neither decoded
    nor kept. *)
Theorem handler_exception_drops_rest {St : Type} (gm : bytes -> M St unit)
    (msg frame rest : bytes) (st st' : St) (e : exn) :
  encode msg = Ok frame -> msg <> [] ->
  gm msg st = (st', Raise e) ->
  feed gm (frame ++ rest) (reset_receive, st) = ((reset_receive, st'), Raise e).
Proof.
  intros He Hne Hgm. apply encode_inv in He as (prefix & Hp & ->).
  pose proof (pack_length _ _ Hp) as Hl.
  pose proof (unpack_pack _ _ Hp) as Hu.
  assert (Hpos : 0 < len msg).
  { destruct msg; [congruence | unfold len; cbn; lia]. }
  unfold feed. rewrite feed_loop_unfold.
  assert (Hlen : len ((prefix ++ msg) ++ rest) = 4 + len msg + len rest).
  { unfold len. rewrite !length_app, Hl. lia. }
  rewrite Hlen.
  destruct (Z.ltb_spec 0 (4 + len msg + len rest)); [|unfold len in *; lia]. cbv zeta.
  cbn [_to_recv _buffer _recv_state reset_receive].
  unfold PREFIX_LENGTH.
  destruct (Z.ltb_spec (4 + len msg + len rest) 4); [unfold len in *; lia|].
  rewrite Z.min_l by (unfold len in *; lia).
  rewrite slice_to_nonneg, slice_from_nonneg by lia.
  change (Z.to_nat 4) with 4%nat.
  rewrite <- app_assoc.
  rewrite firstn_app, skipn_app, Hl, Nat.sub_diag.
  rewrite firstn_all2, skipn_all2 by lia. cbn [firstn skipn app]. rewrite app_nil_r.
  rewrite bool_decide_eq_true_2 by reflexivity. rewrite Hu.
  destruct (Z.ltb_spec 0 (len msg)); [|lia].
  rewrite !length_app, Hl. cbn [Nat.add]. change (skipn 0 (msg ++ rest)) with (msg ++ rest).
  rewrite feed_loop_unfold.
  assert (Hlen2 : len (msg ++ rest) = len msg + len rest).
  { unfold len. rewrite length_app. lia. }
  rewrite Hlen2.
  destruct (Z.ltb_spec 0 (len msg + len rest)); [|unfold len in *; lia]. cbv zeta.
  cbn [_to_recv _buffer _recv_state].
  destruct (Z.ltb_spec (len msg + len rest) (len msg)); [unfold len in *; lia|].
  rewrite Z.min_l by (unfold len in *; lia).
  rewrite slice_to_nonneg by lia.
  replace (Z.to_nat (len msg)) with (length msg) by (unfold len; lia).
  rewrite firstn_app, Nat.sub_diag, firstn_all. cbn [firstn app]. rewrite app_nil_r.
  rewrite bool_decide_eq_false_2 by discriminate.
  rewrite bool_decide_eq_true_2 by reflexivity.
  rewrite Hgm. reflexivity.
Qed.

Lemma handler_exception_drops_rest_witness :
  feed (fun (_ : bytes) (st : nat) => (S st, Raise IndexError))
    ([x00; x00; x00; x01; "k"%byte] ++ [x00; x00; x00; x01; "p"%byte]) (reset_receive, 0%nat)
  = ((reset_receive, 1%nat), Raise IndexError).
Proof.
  apply (handler_exception_drops_rest (fun (_ : bytes) (st : nat) => (S st, Raise IndexError))
           (b "k") [x00; x00; x00; x01; "k"%byte] [x00; x00; x00; x01; "p"%byte]
           0%nat 1%nat IndexError).
  - reflexivity.
  - discriminate.
  - reflexivity.
Defined.
